(** * Two small execution engines: a recursive-descent interpreter and a
      register-based bytecode virtual machine

    Shallow embedding of [Custom Interpreter.cpp] (class [Interpreter]) and of
    [virtualMachine.cpp] (class [VirtualMachine]), with the properties their
    specification states about them.

    Conventions of the embedding.
    - A C++ [int] is a [Z] inside [INT_MIN, INT_MAX]; an operation whose
      mathematical result leaves that interval is undefined behaviour in C++
      and is reported as such, never wrapped silently.
    - Undefined behaviour (an access outside an array, a division by zero, a
      read of an uninitialised cell) is an outcome of its own, apart from the
      exceptions the code throws.
    - An exception carries the machine state at the throw, since the handlers
      of both programs keep running on that state. *)

From Stdlib Require Import ZArith Ascii String List Bool Lia.
From stdpp Require Import base gmap strings list.

Local Open Scope Z_scope.

(** ** The C and C++ library functions both programs use *)

Module C.

Definition INT_MIN : Z := - 2147483648.
Definition INT_MAX : Z := 2147483647.

Definition in_int_range (z : Z) : bool := (INT_MIN <=? z) && (z <=? INT_MAX).

(** What the C++ standard leaves undefined and the two programs can reach. *)
Inductive undefined_behaviour : Type :=
| SignedOverflow          (* an int result outside [INT_MIN, INT_MAX] *)
| DivisionByZero          (* x / 0 or x % 0 on int *)
| StringIndexOutOfBounds  (* s[i] with i > s.size() *)
| RegisterOutOfBounds     (* registers[i] with i outside 0..5 *)
| HeapOutOfBounds         (* memory[a] with a outside 0..99 *)
| UninitialisedRead       (* a cell of new int[100] never written *)
| ContainerIndexOutOfBounds. (* args[i], v[i] past the end of a vector *)

(** The code point of a character. *)
Definition code (c : ascii) : Z := Z.of_N (N_of_ascii c).

(** A [char] converted to [int]: plain [char] is signed on the usual targets,
    so the code points from 128 on are negative. *)
Definition char_to_int (c : ascii) : Z :=
  if code c <? 128 then code c else code c - 256.

(** <cctype> in the "C" locale. A character from 128 on, a negative [char],
    is in none of the classes. *)
Definition isdigit (c : ascii) : bool := (48 <=? code c) && (code c <=? 57).

Definition isalpha (c : ascii) : bool :=
  ((65 <=? code c) && (code c <=? 90)) || ((97 <=? code c) && (code c <=? 122)).

Definition isalnum (c : ascii) : bool := isalpha c || isdigit c.

Definition isspace (c : ascii) : bool :=
  ((9 <=? code c) && (code c <=? 13)) || (code c =? 32).

Definition NUL : ascii := Ascii.zero.

(** [s[i]] on a std::string: the character at [i], the terminating NUL at
    [i = s.size()], undefined past it. *)
Definition string_at (s : string) (i : nat) : option ascii :=
  match String.get i s with
  | Some c => Some c
  | None => if (i =? String.length s)%nat then Some NUL else None
  end.

(** [s.substr(pos)]: [None] stands for the std::out_of_range it throws when
    [pos > s.size()]. *)
Fixpoint substr_from (pos : nat) (s : string) : option string :=
  match pos, s with
  | O, _ => Some s
  | S pos', String _ s' => substr_from pos' s'
  | S _, EmptyString => None
  end.

(** [s.substr(0, n)]: never throws, gives at most [n] characters. *)
Fixpoint substr_prefix (n : nat) (s : string) : string :=
  match n, s with
  | S n', String c s' => String c (substr_prefix n' s')
  | _, _ => EmptyString
  end.

(** std::stoi(s), base 10: leading white space, an optional sign, then the
    longest run of digits; what follows the digits is ignored. *)
Inductive stoi_result : Type :=
| StoiValue (v : Z)
| StoiInvalidArgument   (* std::invalid_argument: no digit to convert *)
| StoiOutOfRange.       (* std::out_of_range: the value does not fit an int *)

Fixpoint skip_spaces (s : string) : string :=
  match s with
  | String c s' => if isspace c then skip_spaces s' else s
  | EmptyString => s
  end.

Fixpoint digits_value (acc : Z) (s : string) : Z :=
  match s with
  | String c s' =>
      if isdigit c then digits_value (10 * acc + (code c - 48)) s' else acc
  | EmptyString => acc
  end.

Definition starts_with_digit (s : string) : bool :=
  match s with
  | String c _ => isdigit c
  | EmptyString => false
  end.

Definition stoi (s : string) : stoi_result :=
  let s1 := skip_spaces s in
  let '(negative, s2) :=
    match s1 with
    | String "-"%char r => (true, r)
    | String "+"%char r => (false, r)
    | _ => (false, s1)
    end in
  if starts_with_digit s2 then
    let v := digits_value 0 s2 in
    let v := if negative : bool then - v else v in
    if in_int_range v then StoiValue v else StoiOutOfRange
  else StoiInvalidArgument.

(** The result of an int operation: a value, or undefined behaviour. *)
Inductive int_result : Type :=
| IntValue (v : Z)
| IntUndefined (u : undefined_behaviour).

(** A mathematical result as an int: itself inside the range of int,
    undefined outside. *)
Definition of_checked (z : Z) : int_result :=
  if in_int_range z then IntValue z else IntUndefined SignedOverflow.

(** [a / b] on int: truncation toward zero; undefined for [b = 0] and for
    [INT_MIN / -1]. *)
Definition int_div (a b : Z) : int_result :=
  if b =? 0 then IntUndefined DivisionByZero else of_checked (Z.quot a b).

(** [a % b] on int: the remainder of the truncating division; undefined
    where the division is. *)
Definition int_rem (a b : Z) : int_result :=
  if b =? 0 then IntUndefined DivisionByZero
  else if in_int_range (Z.quot a b) then IntValue (Z.rem a b)
  else IntUndefined SignedOverflow.

(** [(int) std::pow(a, b)] on int arguments, computed in double and truncated.
    The model takes the power as exact, which it is on every result an int can
    hold; a result an int cannot hold (infinity included) is an undefined
    conversion. *)
Definition int_pow (a b : Z) : int_result :=
  if 0 <=? b then of_checked (a ^ b)
  else if a =? 0 then IntUndefined SignedOverflow
  else if a =? 1 then IntValue 1
  else if a =? -1 then IntValue (if Z.even b then 1 else -1)
  else IntValue 0.

End C.

(** ** The bytecode virtual machine (virtualMachine.cpp) *)

(** Every member function of the class is embedded; [main] loads a fixed
    program, defines one label and calls [run]. *)

Module VirtualMachine.
Import C.

(** What [execute] and its handlers throw. [run] catches every
    std::exception alike, prints its message and stops. *)
Inductive error : Type :=
| UnknownInstruction  (* invalid_argument "Unknown instruction: ..." *)
| LinkError           (* invalid_argument "Error: Undefined label ..." *)
| ArithmeticError     (* runtime_error "Error: Division by zero!" and
                         "Error: Modulus by zero!" *)
| StackUnderflow      (* runtime_error "Error: Return from empty call stack!" *)
| OutOfMemory         (* runtime_error "Error: Out of memory!" *)
| OutOfRange          (* out_of_range "Error: Invalid memory address!" *)
| LibInvalidArgument  (* invalid_argument thrown by std::stoi *)
| LibOutOfRange.      (* out_of_range thrown by substr or by std::stoi *)

(** [int registers[6]]: exactly six slots. *)
Record regfile : Type := mkRegs {
  R0 : Z; R1 : Z; R2 : Z; R3 : Z; R4 : Z; R5 : Z
}.

(** [registers[i]] read; [None] is an index outside the array. *)
Definition reg_get (rf : regfile) (i : Z) : option Z :=
  match i with
  | 0 => Some (R0 rf) | 1 => Some (R1 rf) | 2 => Some (R2 rf)
  | 3 => Some (R3 rf) | 4 => Some (R4 rf) | 5 => Some (R5 rf)
  | _ => None
  end.

(** [registers[i] = v]; [None] is an index outside the array. *)
Definition reg_set (rf : regfile) (i : Z) (v : Z) : option regfile :=
  match i with
  | 0 => Some (mkRegs v (R1 rf) (R2 rf) (R3 rf) (R4 rf) (R5 rf))
  | 1 => Some (mkRegs (R0 rf) v (R2 rf) (R3 rf) (R4 rf) (R5 rf))
  | 2 => Some (mkRegs (R0 rf) (R1 rf) v (R3 rf) (R4 rf) (R5 rf))
  | 3 => Some (mkRegs (R0 rf) (R1 rf) (R2 rf) v (R4 rf) (R5 rf))
  | 4 => Some (mkRegs (R0 rf) (R1 rf) (R2 rf) (R3 rf) v (R5 rf))
  | 5 => Some (mkRegs (R0 rf) (R1 rf) (R2 rf) (R3 rf) (R4 rf) v)
  | _ => None
  end.

(** The members of the class. [memory] holds the cells of [new int[100]]
    written so far: the array starts uninitialised. [cout] and [cerr] record
    what [print] and [run] write. *)
Record vm : Type := mkVM {
  registers : regfile;
  memory : gmap Z Z;
  stackPointer : Z;
  program : list string;
  pc : Z;
  running : bool;
  callStack : list Z;
  labels : gmap string Z;
  cout : list (Z * Z);
  cerr : list error
}.

Definition set_registers (st : vm) (rf : regfile) : vm :=
  mkVM rf (memory st) (stackPointer st) (program st) (pc st) (running st)
       (callStack st) (labels st) (cout st) (cerr st).
Definition set_memory (st : vm) (m : gmap Z Z) : vm :=
  mkVM (registers st) m (stackPointer st) (program st) (pc st) (running st)
       (callStack st) (labels st) (cout st) (cerr st).
Definition set_stackPointer (st : vm) (sp : Z) : vm :=
  mkVM (registers st) (memory st) sp (program st) (pc st) (running st)
       (callStack st) (labels st) (cout st) (cerr st).
Definition set_program (st : vm) (p : list string) : vm :=
  mkVM (registers st) (memory st) (stackPointer st) p (pc st) (running st)
       (callStack st) (labels st) (cout st) (cerr st).
Definition set_pc (st : vm) (n : Z) : vm :=
  mkVM (registers st) (memory st) (stackPointer st) (program st) n (running st)
       (callStack st) (labels st) (cout st) (cerr st).
Definition set_running (st : vm) (b : bool) : vm :=
  mkVM (registers st) (memory st) (stackPointer st) (program st) (pc st) b
       (callStack st) (labels st) (cout st) (cerr st).
Definition set_callStack (st : vm) (cs : list Z) : vm :=
  mkVM (registers st) (memory st) (stackPointer st) (program st) (pc st)
       (running st) cs (labels st) (cout st) (cerr st).
Definition set_labels (st : vm) (l : gmap string Z) : vm :=
  mkVM (registers st) (memory st) (stackPointer st) (program st) (pc st)
       (running st) (callStack st) l (cout st) (cerr st).
Definition add_cout (st : vm) (line : Z * Z) : vm :=
  mkVM (registers st) (memory st) (stackPointer st) (program st) (pc st)
       (running st) (callStack st) (labels st) (cout st ++ [line]) (cerr st).
Definition add_cerr (st : vm) (e : error) : vm :=
  mkVM (registers st) (memory st) (stackPointer st) (program st) (pc st)
       (running st) (callStack st) (labels st) (cout st) (cerr st ++ [e]).

(** The constructor: registers zeroed, [pc = 0], not running, a fresh
    uninitialised heap, the stack pointer at 99. *)
Definition init : vm :=
  mkVM (mkRegs 0 0 0 0 0 0) ∅ 99 [] 0 false [] ∅ [] [].

(** [load]. *)
Definition load (bytecode : list string) (st : vm) : vm := set_program st bytecode.

(** [defineLabel]: the label is the program's length at the time of the call. *)
Definition defineLabel (label : string) (st : vm) : vm :=
  set_labels st (<[label := Z.of_nat (length (program st))]> (labels st)).

(** How a handler ends. *)
Inductive outcome : Type :=
| Normal (st : vm)
| Throw (e : error) (st : vm)
| Undefined (u : undefined_behaviour).

(** [instruction[off] - '0']. *)
Definition decode_reg (instruction : string) (off : nat) : option Z :=
  match string_at instruction off with
  | Some c => Some (char_to_int c - char_to_int "0")
  | None => None
  end.

(** [std::stoi(instruction.substr(off))], with the exception either call
    throws. *)
Definition decode_int (instruction : string) (off : nat) : error + Z :=
  match substr_from off instruction with
  | None => inl LibOutOfRange
  | Some s =>
      match stoi s with
      | StoiValue v => inr v
      | StoiInvalidArgument => inl LibInvalidArgument
      | StoiOutOfRange => inl LibOutOfRange
      end
  end.

(** [registers[reg1] = f(registers[reg1], registers[reg2])], the shape of
    the compound assignments of [arithmetic]. *)
Definition update_reg (f : Z -> Z -> int_result) (reg1 reg2 : Z) (st : vm) : outcome :=
  match reg_get (registers st) reg1, reg_get (registers st) reg2 with
  | Some a, Some b =>
      match f a b with
      | IntValue v =>
          match reg_set (registers st) reg1 v with
          | Some rf => Normal (set_registers st rf)
          | None => Undefined RegisterOutOfBounds
          end
      | IntUndefined u => Undefined u
      end
  | _, _ => Undefined RegisterOutOfBounds
  end.

Definition mov (instruction : string) (st : vm) : outcome :=
  match decode_reg instruction 4 with
  | None => Undefined StringIndexOutOfBounds
  | Some reg =>
      match decode_int instruction 6 with
      | inl e => Throw e st
      | inr value =>
          match reg_set (registers st) reg value with
          | Some rf => Normal (set_registers st rf)
          | None => Undefined RegisterOutOfBounds
          end
      end
  end.

Definition arithmetic (instruction op : string) (st : vm) : outcome :=
  match decode_reg instruction 4, decode_reg instruction 6 with
  | Some reg1, Some reg2 =>
      if String.eqb op "ADD" then
        update_reg (fun a b => of_checked (a + b)) reg1 reg2 st
      else if String.eqb op "SUB" then
        update_reg (fun a b => of_checked (a - b)) reg1 reg2 st
      else if String.eqb op "MUL" then
        update_reg (fun a b => of_checked (a * b)) reg1 reg2 st
      else if String.eqb op "DIV" then
        match reg_get (registers st) reg2 with
        | None => Undefined RegisterOutOfBounds
        | Some b =>
            if b =? 0 then Throw ArithmeticError st
            else update_reg int_div reg1 reg2 st
        end
      else if String.eqb op "MOD" then
        match reg_get (registers st) reg2 with
        | None => Undefined RegisterOutOfBounds
        | Some b =>
            if b =? 0 then Throw ArithmeticError st
            else update_reg int_rem reg1 reg2 st
        end
      else if String.eqb op "EXP" then
        update_reg int_pow reg1 reg2 st
      else Normal st
  | _, _ => Undefined StringIndexOutOfBounds
  end.

Definition comparison (instruction op : string) (st : vm) : outcome :=
  match decode_reg instruction 4, decode_reg instruction 6 with
  | Some reg1, Some reg2 =>
      let compare (test : Z -> Z -> bool) : option bool :=
        match reg_get (registers st) reg1, reg_get (registers st) reg2 with
        | Some a, Some b => Some (test a b)
        | _, _ => None
        end in
      let result : option bool :=
        if String.eqb op "GT" then compare Z.gtb
        else if String.eqb op "LT" then compare Z.ltb
        else if String.eqb op "EQ" then compare Z.eqb
        else Some false in
      match result with
      | None => Undefined RegisterOutOfBounds
      | Some r =>
          match reg_set (registers st) reg1 (if r then 1 else 0) with
          | Some rf => Normal (set_registers st rf)
          | None => Undefined RegisterOutOfBounds
          end
      end
  | _, _ => Undefined StringIndexOutOfBounds
  end.

Definition print (instruction : string) (st : vm) : outcome :=
  match decode_reg instruction 6 with
  | None => Undefined StringIndexOutOfBounds
  | Some reg =>
      match reg_get (registers st) reg with
      | Some v => Normal (add_cout st (reg, v))
      | None => Undefined RegisterOutOfBounds
      end
  end.

Definition jump (instruction : string) (st : vm) : outcome :=
  match substr_from 4 instruction with
  | None => Throw LibOutOfRange st
  | Some label =>
      match labels st !! label with
      | None => Throw LinkError st
      | Some target => Normal (set_pc st target)
      end
  end.

Definition jumpIfEqual (instruction : string) (st : vm) : outcome :=
  match decode_reg instruction 4, decode_reg instruction 6 with
  | Some reg1, Some reg2 =>
      match substr_from 8 instruction with
      | None => Throw LibOutOfRange st
      | Some label =>
          match reg_get (registers st) reg1, reg_get (registers st) reg2 with
          | Some a, Some b =>
              if a =? b then jump (String.append "JMP " label) st else Normal st
          | _, _ => Undefined RegisterOutOfBounds
          end
      end
  | _, _ => Undefined StringIndexOutOfBounds
  end.

(** [call] pushes the return address before it looks the label up. *)
Definition call (instruction : string) (st : vm) : outcome :=
  match substr_from 5 instruction with
  | None => Throw LibOutOfRange st
  | Some label =>
      let st := set_callStack st (pc st :: callStack st) in
      match labels st !! label with
      | None => Throw LinkError st
      | Some target => Normal (set_pc st target)
      end
  end.

Definition ret (st : vm) : outcome :=
  match callStack st with
  | [] => Throw StackUnderflow st
  | top :: rest => Normal (set_callStack (set_pc st top) rest)
  end.

Definition alloc (instruction : string) (st : vm) : outcome :=
  match decode_int instruction 6 with
  | inl e => Throw e st
  | inr size =>
      match of_checked (stackPointer st - size) with
      | IntUndefined u => Undefined u
      | IntValue sp =>
          if sp <? 0 then Throw OutOfMemory st
          else Normal (set_stackPointer st sp)
      end
  end.

(** [store] checks neither the register nor the address. *)
Definition store (instruction : string) (st : vm) : outcome :=
  match decode_reg instruction 6 with
  | None => Undefined StringIndexOutOfBounds
  | Some reg =>
      match decode_int instruction 8 with
      | inl e => Throw e st
      | inr addr =>
          match reg_get (registers st) reg with
          | None => Undefined RegisterOutOfBounds
          | Some v =>
              if (0 <=? addr) && (addr <? 100)
              then Normal (set_memory st (<[addr := v]> (memory st)))
              else Undefined HeapOutOfBounds
          end
      end
  end.

Definition loadFromHeap (instruction : string) (st : vm) : outcome :=
  match decode_reg instruction 6 with
  | None => Undefined StringIndexOutOfBounds
  | Some reg =>
      match decode_int instruction 8 with
      | inl e => Throw e st
      | inr addr =>
          if (addr <? 0) || (100 <=? addr) then Throw OutOfRange st
          else
            match memory st !! addr with
            | None => Undefined UninitialisedRead
            | Some v =>
                match reg_set (registers st) reg v with
                | Some rf => Normal (set_registers st rf)
                | None => Undefined RegisterOutOfBounds
                end
            end
      end
  end.

(** [execute]: the operation is the first three characters of the
    instruction, compared in turn with each mnemonic of the source. *)
Definition execute (instruction : string) (st : vm) : outcome :=
  let op := substr_prefix 3 instruction in
  if String.eqb op "MOV" then mov instruction st
  else if String.eqb op "ADD" then arithmetic instruction "ADD" st
  else if String.eqb op "SUB" then arithmetic instruction "SUB" st
  else if String.eqb op "MUL" then arithmetic instruction "MUL" st
  else if String.eqb op "DIV" then arithmetic instruction "DIV" st
  else if String.eqb op "MOD" then arithmetic instruction "MOD" st
  else if String.eqb op "EXP" then arithmetic instruction "EXP" st
  else if String.eqb op "GT" then comparison instruction "GT" st
  else if String.eqb op "LT" then comparison instruction "LT" st
  else if String.eqb op "EQ" then comparison instruction "EQ" st
  else if String.eqb op "PRINT" then print instruction st
  else if String.eqb op "JMP" then jump instruction st
  else if String.eqb op "JEQ" then jumpIfEqual instruction st
  else if String.eqb op "CALL" then call instruction st
  else if String.eqb op "RET" then ret st
  else if String.eqb op "ALLOC" then alloc instruction st
  else if String.eqb op "STORE" then store instruction st
  else if String.eqb op "LOAD" then loadFromHeap instruction st
  else Throw UnknownInstruction st.

(** How [run] ends: it returns, having caught and printed at most one
    exception; or an instruction ran into undefined behaviour; or the loop
    was still going when the fuel of the model ran out. *)
Inductive run_result : Type :=
| Finished (st : vm)
| RunUndefined (u : undefined_behaviour)
| OutOfFuel.

(** The loop of [run]: one unit of fuel per test of the loop condition. The
    comparison [pc < program.size()] is unsigned, so a negative [pc] ends the
    loop. *)
Fixpoint run_loop (fuel : nat) (st : vm) : run_result :=
  match fuel with
  | O => OutOfFuel
  | S fuel' =>
      if running st && (0 <=? pc st) && (pc st <? Z.of_nat (length (program st)))
      then
        match program st !! Z.to_nat (pc st) with
        | None => RunUndefined ContainerIndexOutOfBounds
        | Some instruction =>
            match execute instruction (set_pc st (pc st + 1)) with
            | Normal st' => run_loop fuel' st'
            | Throw e st' => run_loop fuel' (set_running (add_cerr st' e) false)
            | Undefined u => RunUndefined u
            end
        end
      else Finished st
  end.

Definition run (fuel : nat) (st : vm) : run_result :=
  run_loop fuel (set_running (set_pc st 0) true).

(** The characters that name a register of the file, for the statements
    about operand decoding. *)
Definition register_digit (c : ascii) : bool := (48 <=? code c) && (code c <=? 53).

(** What one instruction leaves alone when it goes through [execute]: the
    heap, the stack pointer, both output streams, the running flag, the
    program and the labels; the call stack is as it was or has lost its
    top. *)
Definition vm_frame (st st' : vm) : Prop :=
  memory st' = memory st /\ stackPointer st' = stackPointer st /\
  cout st' = cout st /\ cerr st' = cerr st /\ running st' = running st /\
  program st' = program st /\ labels st' = labels st /\
  (callStack st' = callStack st \/ exists top, callStack st = top :: callStack st').

Definition framed (st : vm) (o : outcome) : Prop :=
  match o with
  | Normal st' | Throw _ st' => vm_frame st st'
  | Undefined _ => True
  end.

End VirtualMachine.

(** ** The expression interpreter (Custom Interpreter.cpp) *)

(** Every member function of the class is embedded except [block], which
    nothing calls, and [main], which reads the program text from the
    terminal and hands it to [interpret]. *)

Module Interpreter.
Import C.

(** What the interpreter throws. [error(msg)] throws a std::runtime_error;
    the kinds group its messages:
    - [SyntaxError]: every "Expected ..." message, "Invalid factor",
      "Invalid statement", "Unknown keyword: ...", "Unknown statement";
    - [UndefinedSymbol]: "Undefined array: ...", "Undefined function: ...",
      "Undefined variable or function: ...";
    - [OutOfBounds]: "Array index out of bounds".
    The other three are thrown by the library: std::stoi in [integer], and
    the std::vector constructor given a negative size. *)
Inductive error : Type :=
| SyntaxError
| UndefinedSymbol
| OutOfBounds
| LibInvalidArgument
| LibOutOfRange
| LibLengthError.

(** [struct Function]. *)
Record Function : Type := mkFunction {
  parameters : list string;
  body : string
}.

(** The members of the class. *)
Record interp : Type := mkInterp {
  input : string;
  pos : nat;
  current_char : ascii;
  variables : gmap string Z;
  functions : gmap string Function;
  arrays : gmap string (list Z)
}.

Definition set_current (st : interp) (p : nat) (c : ascii) : interp :=
  mkInterp (input st) p c (variables st) (functions st) (arrays st).
Definition set_variables (st : interp) (v : gmap string Z) : interp :=
  mkInterp (input st) (pos st) (current_char st) v (functions st) (arrays st).
Definition set_functions (st : interp) (f : gmap string Function) : interp :=
  mkInterp (input st) (pos st) (current_char st) (variables st) f (arrays st).
Definition set_arrays (st : interp) (a : gmap string (list Z)) : interp :=
  mkInterp (input st) (pos st) (current_char st) (variables st) (functions st) a.

(** [input = text; pos = p; current_char = input[pos];] with [None] for the
    undefined read past the end of [text]. *)
Definition set_cursor (text : string) (p : nat) (st : interp) : option interp :=
  match string_at text p with
  | Some c => Some (mkInterp text p c (variables st) (functions st) (arrays st))
  | None => None
  end.

(** A default-constructed interpreter. [input], [pos] and [current_char] are
    set by [interpret] before anything reads them. *)
Definition init : interp := mkInterp "" 0 NUL ∅ ∅ ∅.

(** How a member function ends: it returns a value, it throws, it runs into
    undefined behaviour, or the recursion was still going when the fuel of
    the model ran out. *)
Inductive outcome (A : Type) : Type :=
| Ok (a : A) (st : interp)
| Throw (e : error) (st : interp)
| Undefined (u : undefined_behaviour)
| OutOfFuel.
Arguments Ok {A} a st.
Arguments Throw {A} e st.
Arguments Undefined {A} u.
Arguments OutOfFuel {A}.

Definition bind {A B : Type} (r : outcome A) (k : A -> interp -> outcome B) : outcome B :=
  match r with
  | Ok a st => k a st
  | Throw e st => Throw e st
  | Undefined u => Undefined u
  | OutOfFuel => OutOfFuel
  end.

Notation "'let*' ( x , st ) := r 'in' k" :=
  (bind r (fun x st => k))
  (at level 10, x name, st name, r at level 100, k at level 200).

(** [if (current_char != c) error(...)]. *)
Definition is_char (st : interp) (c : ascii) : bool := Ascii.eqb (current_char st) c.

Definition at_end (st : interp) : bool := is_char st NUL.

Definition advance (st : interp) : interp :=
  let p := S (pos st) in
  set_current st p
    (if (p <? String.length (input st))%nat
     then match String.get p (input st) with Some c => c | None => NUL end
     else NUL).

(** The scanning loops advance at most once per character left, so
    [S (length - pos)] rounds always reach the exit test of the loop (lemmas
    [skip_whitespace_exit], [integer_exit], [identifier_exit] below). *)
Definition rounds (st : interp) : nat := S (String.length (input st) - pos st).

Fixpoint skip_whitespace_loop (n : nat) (st : interp) : interp :=
  match n with
  | O => st
  | S n' =>
      if negb (at_end st) && isspace (current_char st)
      then skip_whitespace_loop n' (advance st)
      else st
  end.

Definition skip_whitespace (st : interp) : interp :=
  skip_whitespace_loop (rounds st) st.

(** [while (current_char != '\0' && test(current_char))
      { result += current_char; advance(); }] *)
Fixpoint scan_loop (test : ascii -> bool) (n : nat) (acc : string) (st : interp)
  : string * interp :=
  match n with
  | O => (acc, st)
  | S n' =>
      if negb (at_end st) && test (current_char st)
      then scan_loop test n' (String.append acc (String (current_char st) EmptyString))
                     (advance st)
      else (acc, st)
  end.

Definition integer (st : interp) : outcome Z :=
  let '(digits, st) := scan_loop isdigit (rounds st) EmptyString st in
  match stoi digits with
  | StoiValue v => Ok v st
  | StoiInvalidArgument => Throw LibInvalidArgument st
  | StoiOutOfRange => Throw LibOutOfRange st
  end.

Definition identifier (st : interp) : string * interp :=
  scan_loop (fun c => isalnum c || Ascii.eqb c "_") (rounds st) EmptyString st.

(** An int result of [+=], [-=], [*=], [/=]. *)
Definition int_value (r : int_result) (st : interp) : outcome Z :=
  match r with
  | IntValue v => Ok v st
  | IntUndefined u => Undefined u
  end.

(** [for (i = 0; i < parameters.size(); i++) variables[parameters[i]] = args[i];] *)
Fixpoint bind_parameters (params : list string) (args : list Z)
    (vars : gmap string Z) : option (gmap string Z) :=
  match params, args with
  | [], _ => Some vars
  | p :: params', a :: args' => bind_parameters params' args' (<[p := a]> vars)
  | _ :: _, [] => None
  end.

(** [call_function], from the test of ['('] to the [advance] past [')']: the
    arguments are parsed by [call_args], the argument loop of the source. *)
Definition call_prologue (call_args : list string -> list Z -> interp -> outcome (list Z))
    (func : Function) (st : interp) : outcome (list Z) :=
  let st := skip_whitespace st in
  if negb (is_char st "(") then Throw SyntaxError st
  else
    let st := advance st in
    let* (args, st) := call_args (parameters func) [] st in
    if negb (is_char st ")") then Throw SyntaxError st
    else Ok args (advance st).

(** [call_function], entering the body: the parameters are bound in
    [variables], then [input = func.body; pos = 0; current_char = input[pos];].
    [None] is the undefined read of an argument that was not parsed. *)
Definition enter_body (func : Function) (args : list Z) (st : interp) : option interp :=
  match bind_parameters (parameters func) args (variables st) with
  | None => None
  | Some bound =>
      Some (mkInterp (body func) 0
              (match String.get 0 (body func) with Some c => c | None => NUL end)
              bound (functions st) (arrays st))
  end.

(** [call_function], leaving the body, on both the normal and the
    exceptional path: [input = saved_input; pos = saved_pos;
    current_char = input[pos]; variables = saved_variables;] where [saved] is
    the state the three were saved from. *)
Definition leave_body (saved : interp) (st : interp) : option interp :=
  match set_cursor (input saved) (pos saved) st with
  | Some st => Some (set_variables st (variables saved))
  | None => None
  end.

(** [call_function], from [saved_variables = variables] to the end: [expr]
    runs on the body, inside [try { } catch (...) { restore; throw; }]. *)
Definition call_body (expr : interp -> outcome Z)
    (func : Function) (args : list Z) (st : interp) : outcome Z :=
  match enter_body func args st with
  | None => Undefined ContainerIndexOutOfBounds
  | Some inside =>
      match expr inside with
      | Ok result st' =>
          match leave_body st st' with
          | Some st'' => Ok result st''
          | None => Undefined StringIndexOutOfBounds
          end
      | Throw e st' =>
          match leave_body st st' with
          | Some st'' => Throw e st''
          | None => Undefined StringIndexOutOfBounds
          end
      | Undefined u => Undefined u
      | OutOfFuel => OutOfFuel
      end
  end.

(** [expr], [term], [factor] and [call_function] call one another, and a
    function body can call its own function: every call takes one unit of
    fuel, and so does every round of the loops of [expr], [term] and of the
    argument loop of [call_function]. *)
Fixpoint expr (fuel : nat) (st : interp) : outcome Z :=
  match fuel with
  | O => OutOfFuel
  | S fuel' =>
      let* (result, st) := term fuel' st in
      expr_loop fuel' result st
  end

with expr_loop (fuel : nat) (result : Z) (st : interp) : outcome Z :=
  match fuel with
  | O => OutOfFuel
  | S fuel' =>
      if is_char st "+" || is_char st "-" then
        let op := current_char st in
        let st := advance st in
        let* (v, st) := term fuel' st in
        let* (result, st) :=
          int_value (of_checked (if Ascii.eqb op "+" then result + v else result - v)) st in
        expr_loop fuel' result st
      else Ok result st
  end

with term (fuel : nat) (st : interp) : outcome Z :=
  match fuel with
  | O => OutOfFuel
  | S fuel' =>
      let* (result, st) := factor fuel' st in
      term_loop fuel' result st
  end

with term_loop (fuel : nat) (result : Z) (st : interp) : outcome Z :=
  match fuel with
  | O => OutOfFuel
  | S fuel' =>
      if is_char st "*" || is_char st "/" then
        let op := current_char st in
        let st := advance st in
        let* (v, st) := factor fuel' st in
        let* (result, st) :=
          int_value (if Ascii.eqb op "*" then of_checked (result * v)
                     else int_div result v) st in
        term_loop fuel' result st
      else Ok result st
  end

with factor (fuel : nat) (st : interp) : outcome Z :=
  match fuel with
  | O => OutOfFuel
  | S fuel' =>
      let st := skip_whitespace st in
      if isdigit (current_char st) then integer st
      else if isalpha (current_char st) then
        let '(var_name, st) := identifier st in
        if is_char st "[" then
          let st := advance st in
          let* (index, st) := expr fuel' st in
          if negb (is_char st "]") then Throw SyntaxError st
          else
            let st := advance st in
            match arrays st !! var_name with
            | Some elements =>
                if (index <? 0) || (Z.of_nat (length elements) <=? index)
                then Throw OutOfBounds st
                else
                  match elements !! Z.to_nat index with
                  | Some v => Ok v st
                  | None => Undefined ContainerIndexOutOfBounds
                  end
            | None => Throw UndefinedSymbol st
            end
        else
          match variables st !! var_name with
          | Some v => Ok v st
          | None =>
              match functions st !! var_name with
              | Some _ => call_function fuel' var_name st
              | None => Throw UndefinedSymbol st
              end
          end
      else if is_char st "(" then
        let st := advance st in
        let* (result, st) := expr fuel' st in
        if negb (is_char st ")") then Throw SyntaxError st
        else Ok result (advance st)
      else Throw SyntaxError st
  end

with call_function (fuel : nat) (func_name : string) (st : interp) : outcome Z :=
  match fuel with
  | O => OutOfFuel
  | S fuel' =>
      match functions st !! func_name with
      | None => Throw UndefinedSymbol st
      | Some func =>
          let* (args, st) := call_prologue (call_args fuel') func st in
          call_body (expr fuel') func args st
      end
  end

with call_args (fuel : nat) (params : list string) (args : list Z) (st : interp)
  : outcome (list Z) :=
  match fuel with
  | O => OutOfFuel
  | S fuel' =>
      match params with
      | [] => Ok args st
      | _ :: params' =>
          let* (_, st) :=
            (if (0 <? length args)%nat then
               if negb (is_char st ",") then Throw SyntaxError st
               else Ok tt (advance st)
             else Ok tt st) in
          let* (v, st) := expr fuel' st in
          call_args fuel' params' (args ++ [v]) st
      end
  end.

(** The parameter loop of a function declaration:
    [while (true) { parameters.push_back(identifier());
                    if (current_char == ')') break;
                    if (current_char != ',') error(...);
                    advance(); }] *)
Fixpoint declared_parameters (fuel : nat) (params : list string) (st : interp)
  : outcome (list string) :=
  match fuel with
  | O => OutOfFuel
  | S fuel' =>
      let '(name, st) := identifier st in
      let params := params ++ [name] in
      if is_char st ")" then Ok params st
      else if negb (is_char st ",") then Throw SyntaxError st
      else declared_parameters fuel' params (advance st)
  end.

(** The branch of [statement] under [current_char == 'f']. *)
Definition function_declaration (fuel : nat) (st : interp) : outcome unit :=
  let st := advance st in
  let '(keyword, st) := identifier st in
  if String.eqb keyword "function" then
    let '(func_name, st) := identifier st in
    let st := skip_whitespace st in
    if negb (is_char st "(") then Throw SyntaxError st
    else
      let st := advance st in
      let* (params, st) :=
        (if negb (is_char st ")") then declared_parameters fuel [] st
         else Ok [] st) in
      let st := advance st in
      let st := skip_whitespace st in
      if negb (is_char st "{") then Throw SyntaxError st
      else
        let st := advance st in
        let '(text, st) :=
          scan_loop (fun c => negb (Ascii.eqb c "}")) (rounds st) EmptyString st in
        if negb (is_char st "}") then Throw SyntaxError st
        else
          let st := advance st in
          Ok tt (set_functions st (<[func_name := mkFunction params text]> (functions st)))
  else Throw SyntaxError st.

(** The branch of [statement] under [current_char == 'a']. A negative size
    converts to a size the vector constructor refuses. *)
Definition array_declaration (fuel : nat) (st : interp) : outcome unit :=
  let st := advance st in
  let '(keyword, st) := identifier st in
  if String.eqb keyword "array" then
    let '(array_name, st) := identifier st in
    let st := skip_whitespace st in
    if negb (is_char st "[") then Throw SyntaxError st
    else
      let st := advance st in
      let* (size, st) := expr fuel st in
      if negb (is_char st "]") then Throw SyntaxError st
      else
        let st := advance st in
        if size <? 0 then Throw LibLengthError st
        else Ok tt (set_arrays st (<[array_name := replicate (Z.to_nat size) 0]> (arrays st)))
  else Throw SyntaxError st.

Definition statement (fuel : nat) (st : interp) : outcome unit :=
  let st := skip_whitespace st in
  if at_end st then Ok tt st
  else if isalpha (current_char st) then
    let '(id, st) := identifier st in
    let st := skip_whitespace st in
    if is_char st "=" then
      let st := advance st in
      let* (value, st) := expr fuel st in
      Ok tt (set_variables st (<[id := value]> (variables st)))
    else if is_char st "(" then
      let* (_, st) := call_function fuel id st in
      Ok tt st
    else if is_char st "[" then
      let st := advance st in
      let* (index, st) := expr fuel st in
      if negb (is_char st "]") then Throw SyntaxError st
      else
        let st := advance st in
        let st := skip_whitespace st in
        if negb (is_char st "=") then Throw SyntaxError st
        else
          let st := advance st in
          let* (value, st) := expr fuel st in
          match arrays st !! id with
          | Some elements =>
              if (index <? 0) || (Z.of_nat (length elements) <=? index)
              then Throw OutOfBounds st
              else Ok tt (set_arrays st
                            (<[id := <[Z.to_nat index := value]> elements]> (arrays st)))
          | None => Throw UndefinedSymbol st
          end
    else Throw SyntaxError st
  else if is_char st "f" then function_declaration fuel st
  else if is_char st "a" then array_declaration fuel st
  else Throw SyntaxError st.

(** [program]: one unit of fuel per test of the loop condition. *)
Fixpoint program (fuel : nat) (st : interp) : outcome unit :=
  match fuel with
  | O => OutOfFuel
  | S fuel' =>
      if negb (at_end st) then
        let* (_, st) := statement fuel' st in
        let st := skip_whitespace st in
        if is_char st ";" then program fuel' (advance st)
        else if negb (at_end st) then Throw SyntaxError st
        else program fuel' st
      else Ok tt st
  end.

(** [interpret]: the exception [program] throws is caught and printed; the
    value returned is the exception printed, if any. *)
Definition interpret (fuel : nat) (text : string) (st : interp) : outcome (option error) :=
  match set_cursor text 0 st with
  | None => Undefined StringIndexOutOfBounds
  | Some st =>
      match program fuel st with
      | Ok _ st => Ok None st
      | Throw e st => Ok (Some e) st
      | Undefined u => Undefined u
      | OutOfFuel => OutOfFuel
      end
  end.

(** [expr] run on a text of its own, as [call_function] runs a body. *)
Definition eval (fuel : nat) (text : string) (st : interp) : outcome Z :=
  match set_cursor text 0 st with
  | None => Undefined StringIndexOutOfBounds
  | Some st => expr fuel st
  end.

(** ** Predicates and states the properties are stated with *)

(** The invariant of the cursor: [current_char] is [input[pos]], the
    terminating NUL included. [interpret] and [call_function] establish it
    when they set the cursor, [advance] keeps it. *)
Definition cursor_ok (st : interp) : Prop :=
  string_at (input st) (pos st) = Some (current_char st).

(** What [expr] and the functions under it leave alone: the text being read
    and the three tables. *)
Definition same_frame (st st' : interp) : Prop :=
  input st' = input st /\ variables st' = variables st /\
  functions st' = functions st /\ arrays st' = arrays st.

(** [st'] comes after [st] on the same text, with the same tables. *)
Definition extends (st st' : interp) : Prop :=
  same_frame st st' /\ (cursor_ok st -> cursor_ok st').

Definition preserved {A : Type} (st : interp) (r : outcome A) : Prop :=
  match r with
  | Ok _ st' | Throw _ st' => extends st st'
  | Undefined _ | OutOfFuel => True
  end.

(** The array read of [factor], from the index on. *)
Definition array_read (elements : option (list Z)) (index : Z) (st : interp) : outcome Z :=
  match elements with
  | Some elements =>
      if (index <? 0) || (Z.of_nat (length elements) <=? index)
      then Throw OutOfBounds st
      else
        match elements !! Z.to_nat index with
        | Some v => Ok v st
        | None => Undefined ContainerIndexOutOfBounds
        end
  | None => Throw UndefinedSymbol st
  end.

(** [r'] is [r] unless [r] ran out of fuel. *)
Definition stable {A : Type} (r r' : outcome A) : Prop := r <> OutOfFuel -> r' = r.

(** A caller ready to call [g], whose body names a symbol nobody defined. *)
Definition failing_call : interp :=
  mkInterp "g(1)+2" 1 "(" {[ "x"%string := 3 ]}
           {[ "g"%string := mkFunction ["x"%string] "x+y" ]} ∅.

(** A caller ready to call the squaring function, with an [x] of its own. *)
Definition squaring_call : interp :=
  mkInterp "f(5)" 1 "(" {[ "x"%string := 3 ]}
           {[ "f"%string := mkFunction ["x"%string] "x*x" ]} ∅.

(** An interpreter that holds an array [a] of three elements. *)
Definition with_array (x y z : Z) : interp :=
  mkInterp "" 0 NUL ∅ ∅ {[ "a"%string := [x; y; z] ]}.

(** No function and no array is added between [st] and [st']. *)
Definition no_declaration (st st' : interp) : Prop :=
  input st' = input st /\ functions st' = functions st /\
  forall name : string, arrays st !! name = None -> arrays st' !! name = None.

Definition declares_nothing {A : Type} (st : interp) (r : outcome A) : Prop :=
  match r with
  | Ok _ st' | Throw _ st' => no_declaration st st'
  | Undefined _ | OutOfFuel => True
  end.

(** ** [block], which no other function calls *)

(** The loop of [block]:
    [while (current_char != '\0' && current_char != '}')
       { statement(); skip_whitespace(); if (current_char == ';') advance(); }] *)
Fixpoint block_loop (fuel : nat) (st : interp) : outcome unit :=
  match fuel with
  | O => OutOfFuel
  | S fuel' =>
      if negb (at_end st) && negb (is_char st "}") then
        let* (_, st) := statement fuel' st in
        let st := skip_whitespace st in
        block_loop fuel' (if is_char st ";" then advance st else st)
      else Ok tt st
  end.

Definition block (fuel : nat) (st : interp) : outcome unit :=
  let st := skip_whitespace st in
  if negb (is_char st "{") then Throw SyntaxError st
  else
    let* (_, st) := block_loop fuel (advance st) in
    if negb (is_char st "}") then Throw SyntaxError st
    else Ok tt (advance st).

(** ** Further predicates *)

(** The exceptions an expression can throw. *)
Definition expression_error (e : error) : bool :=
  match e with
  | SyntaxError | UndefinedSymbol | OutOfBounds | LibOutOfRange => true
  | LibInvalidArgument | LibLengthError => false
  end.

Definition throws_only {A : Type} (allowed : error -> bool) (r : outcome A) : Prop :=
  match r with
  | Throw e _ => allowed e = true
  | _ => True
  end.

(** Every variable and every array element holds an int. *)
Definition ints_ok (st : interp) : Prop :=
  (forall (x : string) (v : Z), variables st !! x = Some v -> in_int_range v = true) /\
  (forall (a : string) (elements : list Z) (i : nat) (v : Z),
      arrays st !! a = Some elements -> elements !! i = Some v ->
      in_int_range v = true).

(** The function table is the same, and the arrays are the same ones with the
    same lengths. *)
Definition tables_kept (st st' : interp) : Prop :=
  functions st' = functions st /\
  forall name : string,
    length <$> (arrays st' !! name) = length <$> (arrays st !! name).

(** The value returned, when one is, satisfies [Q]. *)
Definition returns {A : Type} (Q : A -> Prop) (r : outcome A) : Prop :=
  match r with
  | Ok a _ => Q a
  | _ => True
  end.

Definition is_int (v : Z) : Prop := in_int_range v = true.

(** From [st] to [st'] the tables are kept, and so is the fact that every
    value is an int. *)
Definition evolves (st st' : interp) : Prop :=
  tables_kept st st' /\ (ints_ok st -> ints_ok st').

Definition evolving {A : Type} (st : interp) (r : outcome A) : Prop :=
  match r with
  | Ok _ st' | Throw _ st' => evolves st st'
  | Undefined _ | OutOfFuel => True
  end.

(** The characters of an identifier. *)
Definition identifier_char (c : ascii) : bool := isalnum c || Ascii.eqb c "_".

Fixpoint all_chars (test : ascii -> bool) (s : string) : bool :=
  match s with
  | EmptyString => true
  | String c s' => test c && all_chars test s'
  end.

End Interpreter.


(** * Properties of the virtual machine *)

Module VirtualMachineProperties.
Import C VirtualMachine.

Lemma reg_get_not_digit (rf : regfile) (c : ascii) :
  register_digit c = false ->
  reg_get rf (char_to_int c - char_to_int "0") = None.
Proof.
  destruct c as [[] [] [] [] [] [] [] []]; cbv; intros H;
    solve [discriminate H | reflexivity].
Qed.

Lemma reg_set_not_digit (rf : regfile) (c : ascii) (v : Z) :
  register_digit c = false ->
  reg_set rf (char_to_int c - char_to_int "0") v = None.
Proof.
  destruct c as [[] [] [] [] [] [] [] []]; cbv; intros H;
    solve [discriminate H | reflexivity].
Qed.

Lemma reg_get_set (rf rf' : regfile) (i v : Z) :
  reg_set rf i v = Some rf' -> reg_get rf' i = Some v.
Proof.
  destruct i as [|p|p]; try discriminate.
  - intros [= <-]. reflexivity.
  - destruct p as [[[?|?|]|[?|?|]|]|[[?|?|]|[?|?|]|]|]; try discriminate;
      intros [= <-]; reflexivity.
Qed.

Lemma decode_reg_at (instruction : string) (off : nat) (c : ascii) :
  string_at instruction off = Some c ->
  decode_reg instruction off = Some (char_to_int c - char_to_int "0").
Proof. unfold decode_reg. intros ->. reflexivity. Qed.

(** ** The run loop stops at the first exception *)

Lemma run_loop_stops_on_throw (fuel : nat) (st st' : vm) (instruction : string) (e : error) :
  running st = true ->
  0 <= pc st < Z.of_nat (length (program st)) ->
  program st !! Z.to_nat (pc st) = Some instruction ->
  execute instruction (set_pc st (pc st + 1)) = Throw e st' ->
  run_loop (S (S fuel)) st = Finished (set_running (add_cerr st' e) false).
Proof.
  intros Hrun Hpc Hfetch Hexec.
  cbn [run_loop]. rewrite Hrun, Hfetch, Hexec.
  replace (0 <=? pc st) with true by (symmetry; apply Z.leb_le; lia).
  replace (pc st <? Z.of_nat (length (program st))) with true
    by (symmetry; apply Z.ltb_lt; lia).
  reflexivity.
Qed.

(** ** Handlers, called on instructions whose characters sit at the
       offsets the handlers read *)

Lemma division_by_zero_throws (instruction : string) (st : vm) (reg1 reg2 : Z) :
  decode_reg instruction 4 = Some reg1 ->
  decode_reg instruction 6 = Some reg2 ->
  reg_get (registers st) reg2 = Some 0 ->
  arithmetic instruction "DIV" st = Throw ArithmeticError st /\
  arithmetic instruction "MOD" st = Throw ArithmeticError st.
Proof.
  intros H1 H2 H0. unfold arithmetic. rewrite H1, H2. cbn. rewrite H0. split; reflexivity.
Qed.

Lemma store_then_load (i1 i2 : string) (st : vm) (rs rd addr v : Z) :
  decode_reg i1 6 = Some rs -> decode_int i1 8 = inr addr ->
  decode_reg i2 6 = Some rd -> decode_int i2 8 = inr addr ->
  reg_get (registers st) rs = Some v ->
  0 <= rd <= 5 -> 0 <= addr < 100 ->
  exists st1 st2,
    store i1 st = Normal st1 /\ loadFromHeap i2 st1 = Normal st2 /\
    reg_get (registers st2) rd = Some v.
Proof.
  intros Hs1 Ha1 Hs2 Ha2 Hv Hrd Haddr.
  unfold store, loadFromHeap. rewrite Hs1, Ha1, Hv, Hs2, Ha2.
  replace ((0 <=? addr) && (addr <? 100)) with true by (symmetry; apply andb_true_iff; lia).
  replace ((addr <? 0) || (100 <=? addr)) with false by (symmetry; apply orb_false_iff; lia).
  destruct (reg_set (registers st) rd v) as [rf|] eqn:Hset.
  - eexists _, _. split; [reflexivity|]. cbn. rewrite lookup_insert_eq, Hset.
    split; [reflexivity|]. cbn. eapply reg_get_set, Hset.
  - exfalso. assert (rd = 0 \/ rd = 1 \/ rd = 2 \/ rd = 3 \/ rd = 4 \/ rd = 5) as Hc by lia.
    destruct Hc as [->|[->|[->|[->|[->| ->]]]]]; discriminate Hset.
Qed.

Lemma load_out_of_range (st : vm) :
  loadFromHeap "LOAD R0 150" st = Throw OutOfRange st.
Proof. reflexivity. Qed.

Lemma store_reads_letter_R (st : vm) :
  decode_reg "STORE R0 0" 6 = Some 34 /\
  store "STORE R0 0" st = Undefined RegisterOutOfBounds.
Proof. split; reflexivity. Qed.

Lemma call_pushes_and_jumps (label : string) (target : Z) (st : vm) :
  labels st !! label = Some target ->
  call (String.append "CALL " label) st
  = Normal (set_pc (set_callStack st (pc st :: callStack st)) target).
Proof.
  intros H. unfold call.
  change (substr_from 5 (String.append "CALL " label)) with (Some label).
  change (labels (set_callStack st (pc st :: callStack st))) with (labels st).
  cbv beta iota zeta. rewrite H. reflexivity.
Qed.

Lemma ret_pops (top : Z) (rest : list Z) (st : vm) :
  callStack st = top :: rest ->
  execute "RET" st = Normal (set_callStack (set_pc st top) rest).
Proof. intros H. cbn. unfold ret. rewrite H. reflexivity. Qed.

Lemma ret_on_empty_stack (st : vm) :
  callStack st = [] -> execute "RET" st = Throw StackUnderflow st.
Proof. intros H. cbn. unfold ret. rewrite H. reflexivity. Qed.

(** With the register digits at offsets 4 and 6, where the handlers read
    them, the arithmetic of the specification comes out. *)
Lemma digits_at_the_offsets_multiply :
  exists st, run 10 (load ["MOV 0 10"; "MOV 1 5"; "MUL 0 1"]%string init) = Finished st /\
             R0 (registers st) = 50 /\ cerr st = [].
Proof. eexists. split; [vm_compute; reflexivity|]. split; reflexivity. Qed.

Lemma digits_at_the_offsets_divide_by_zero :
  exists st, run 10 (load ["MOV 1 0"; "DIV 0 1"; "MOV 0 7"]%string init) = Finished st /\
             cerr st = [ArithmeticError] /\ pc st = 2 /\ R0 (registers st) = 0.
Proof. eexists. split; [vm_compute; reflexivity|]. repeat split; reflexivity. Qed.

(** ** Dispatch and operand decoding against the specification *)

(** C2. A memory round trip [STORE R0 a; LOAD R1 a] and the OutOfRange of
    [LOAD R0 150] need [execute] to reach [store] and [loadFromHeap]. It never
    does: the operation is the first three characters of the instruction,
    "STO" or "LOA", which equal neither "STORE" nor "LOAD", so every
    instruction that starts with STORE or LOAD is thrown out as an unknown
    instruction, the machine state untouched. *)
Theorem store_and_load_are_unknown_instructions (rest : string) (st : vm) :
  execute (String.append "STORE" rest) st = Throw UnknownInstruction st /\
  execute (String.append "LOAD" rest) st = Throw UnknownInstruction st.
Proof. split; reflexivity. Qed.

(** C3. A [CALL label] never reaches [call]: the operation compared with
    "CALL" is the three characters "CAL", so every instruction that starts
    with CALL is thrown out as an unknown instruction and pushes no return
    address. ([RET] on an empty call stack does fail with StackUnderflow:
    [ret_on_empty_stack].) *)
Theorem call_is_an_unknown_instruction (rest : string) (st : vm) :
  execute (String.append "CALL" rest) st = Throw UnknownInstruction st.
Proof. reflexivity. Qed.

(** C7. On [MOV R0 10; MOV R1 5; MUL R0 R1] the run does not leave 50 in R0:
    [mov] takes the register from the character at offset 4, the letter R of
    "MOV R0 10", and writes [registers[34]], outside the register file. The
    division of the specification, [DIV R0 R1], reads its two registers the
    same way, from the letter R and from the space, and is undefined as well,
    whatever R1 holds. *)
Theorem mov_mul_program_is_undefined (fuel : nat) (st : vm) :
  decode_reg "MOV R0 10" 4 = Some 34 /\
  run (S fuel) (load ["MOV R0 10"; "MOV R1 5"; "MUL R0 R1"]%string st)
  = RunUndefined RegisterOutOfBounds /\
  run (S fuel) (load ["MOV R1 0"; "DIV R0 R1"]%string st)
  = RunUndefined RegisterOutOfBounds /\
  execute "DIV R0 R1" st = Undefined RegisterOutOfBounds.
Proof. repeat split; reflexivity. Qed.

Lemma update_reg_out_of_bounds (f : Z -> Z -> int_result) (reg1 reg2 : Z) (st : vm) :
  reg_get (registers st) reg1 = None \/ reg_get (registers st) reg2 = None ->
  update_reg f reg1 reg2 st = Undefined RegisterOutOfBounds.
Proof.
  unfold update_reg. intros [H|H]; rewrite H; [reflexivity|].
  destruct (reg_get (registers st) reg1); reflexivity.
Qed.

(** C10, as stated, fails on this input: the character at the register
    position of "DIV 9 1" is not one of '0'..'5', yet no access outside the
    register file takes place and an error of the taxonomy is raised, because
    [arithmetic] tests the source register, which is valid and holds 0, before
    it touches the destination. *)
Lemma division_tests_the_source_first :
  substr_prefix 3 "DIV 9 1" = "DIV"%string /\
  string_at "DIV 9 1" 4 = Some "9"%char /\
  register_digit "9" = false /\
  execute "DIV 9 1" init = Throw ArithmeticError init.
Proof. repeat split; reflexivity. Qed.

(** C10, amended. [mov], [arithmetic] and [comparison] take the register
    index as the character at offset 4 (and 6) minus '0' and index the register
    file with it, unchecked. When such a character is not one of '0'..'5':
    ADD, SUB, MUL, EXP and the comparisons access the register file out of its
    bounds and raise no error; DIV and MOD do the same unless the source
    register is valid and holds 0, where ArithmeticError is thrown before the
    destination is touched; MOV does the same once its immediate has parsed,
    and throws the parse failure otherwise. *)
Theorem register_index_is_never_validated (instruction : string) (st : vm) (c1 : ascii) :
  string_at instruction 4 = Some c1 ->
  (register_digit c1 = false ->
   mov instruction st =
   match decode_int instruction 6 with
   | inl e => Throw e st
   | inr _ => Undefined RegisterOutOfBounds
   end) /\
  (forall c2 : ascii,
     string_at instruction 6 = Some c2 ->
     register_digit c1 = false \/ register_digit c2 = false ->
     let zero_source :=
       match reg_get (registers st) (char_to_int c2 - char_to_int "0") with
       | Some 0 => true
       | _ => false
       end in
     (forall op : string, In op ["ADD"; "SUB"; "MUL"; "EXP"]%string ->
        arithmetic instruction op st = Undefined RegisterOutOfBounds) /\
     (forall op : string, In op ["GT"; "LT"; "EQ"]%string ->
        comparison instruction op st = Undefined RegisterOutOfBounds) /\
     (forall op : string, In op ["DIV"; "MOD"]%string ->
        arithmetic instruction op st =
        if zero_source then Throw ArithmeticError st
        else Undefined RegisterOutOfBounds)).
Proof.
  intros H4. split.
  - intros Hbad. unfold mov. rewrite (decode_reg_at _ _ _ H4).
    destruct (decode_int instruction 6); [reflexivity|].
    rewrite (reg_set_not_digit _ _ _ Hbad). reflexivity.
  - intros c2 H6 Hbad zero_source.
    set (reg1 := char_to_int c1 - char_to_int "0").
    set (reg2 := char_to_int c2 - char_to_int "0") in *.
    assert (reg_get (registers st) reg1 = None \/ reg_get (registers st) reg2 = None)
      as Hnone.
    { destruct Hbad as [Hb|Hb]; [left|right]; apply reg_get_not_digit, Hb. }
    split; [|split].
    + intros op Hop. unfold arithmetic.
      rewrite (decode_reg_at _ _ _ H4), (decode_reg_at _ _ _ H6).
      fold reg1 reg2.
      destruct Hop as [<-|[<-|[<-|[<-|[]]]]]; cbn [String.eqb Ascii.eqb Bool.eqb];
        apply update_reg_out_of_bounds, Hnone.
    + intros op Hop. unfold comparison.
      rewrite (decode_reg_at _ _ _ H4), (decode_reg_at _ _ _ H6).
      fold reg1 reg2.
      assert (forall test : Z -> Z -> bool,
                 match reg_get (registers st) reg1, reg_get (registers st) reg2 with
                 | Some a, Some b => Some (test a b)
                 | _, _ => None
                 end = None) as Hcmp.
      { intros test. destruct Hnone as [->| ->]; [reflexivity|].
        destruct (reg_get (registers st) reg1); reflexivity. }
      destruct Hop as [<-|[<-|[<-|[]]]]; cbn [String.eqb Ascii.eqb Bool.eqb];
        rewrite Hcmp; reflexivity.
    + intros op Hop. unfold arithmetic.
      rewrite (decode_reg_at _ _ _ H4), (decode_reg_at _ _ _ H6).
      fold reg1 reg2. subst zero_source.
      destruct Hop as [<-|[<-|[]]]; cbn [String.eqb Ascii.eqb Bool.eqb];
        (destruct (reg_get (registers st) reg2) as [b|] eqn:H2; [|reflexivity]);
        (destruct (Z.eqb_spec b 0) as [->|Hb]; [reflexivity|]);
        (destruct Hnone as [H1|H1]; [|discriminate H1]);
        (rewrite update_reg_out_of_bounds by (left; exact H1));
        destruct b; try reflexivity; contradiction.
Qed.

Lemma register_index_is_never_validated_witness :
  string_at "ADD 9 1" 4 = Some "9"%char /\
  string_at "ADD 9 1" 6 = Some "1"%char /\
  register_digit "9" = false /\
  arithmetic "ADD 9 1" "ADD" init = Undefined RegisterOutOfBounds.
Proof.
  repeat (split; [reflexivity|]).
  apply (proj2 (register_index_is_never_validated "ADD 9 1" init "9" eq_refl)
           "1"%char eq_refl (or_introl eq_refl)).
  left. reflexivity.
Defined.

End VirtualMachineProperties.

(** * Properties of the interpreter *)

Module InterpreterProperties.
Import C Interpreter.

(** ** The cursor *)

Lemma get_None_iff (s : string) (i : nat) :
  String.get i s = None <-> (String.length s <= i)%nat.
Proof.
  revert i. induction s as [|c s IH]; intros i; simpl.
  - split; [lia | reflexivity].
  - destruct i as [|i]; simpl; [split; [discriminate | lia]|].
    rewrite IH. lia.
Qed.

Lemma extends_refl (st : interp) : extends st st.
Proof. repeat split; auto. Qed.

Lemma extends_trans (st1 st2 st3 : interp) :
  extends st1 st2 -> extends st2 st3 -> extends st1 st3.
Proof.
  intros [(Hi & Hv & Hf & Ha) Hc] [(Hi' & Hv' & Hf' & Ha') Hc'].
  repeat split; try congruence. auto.
Qed.

Lemma preserved_extends {A : Type} (st st1 : interp) (r : outcome A) :
  extends st st1 -> preserved st1 r -> preserved st r.
Proof. destruct r; simpl; eauto using extends_trans. Qed.

Lemma preserved_bind {A B : Type} (st : interp) (r : outcome A)
    (k : A -> interp -> outcome B) :
  preserved st r ->
  (forall a st1, r = Ok a st1 -> preserved st1 (k a st1)) ->
  preserved st (bind r k).
Proof.
  destruct r as [a st1|e st1|u|]; simpl; intros H Hk; auto.
  eapply preserved_extends; eauto.
Qed.

Lemma is_char_not_at_end (st : interp) (c : ascii) :
  is_char st c = true -> c <> NUL -> at_end st = false.
Proof.
  unfold at_end, is_char. intros H Hc.
  apply Ascii.eqb_eq in H. apply Ascii.eqb_neq. congruence.
Qed.

Lemma extends_advance (st : interp) : at_end st = false -> extends st (advance st).
Proof.
  intros Hend. split; [repeat split|].
  unfold cursor_ok, advance, set_current, string_at.
  cbn [input pos current_char]. intros Hok.
  apply Ascii.eqb_neq in Hend.
  assert (pos st < String.length (input st))%nat as Hlt.
  { destruct (String.get (pos st) (input st)) eqn:Hget.
    - destruct (le_lt_dec (String.length (input st)) (pos st)) as [Hle|]; [|assumption].
      apply get_None_iff in Hle. congruence.
    - destruct (pos st =? String.length (input st))%nat; [|discriminate].
      injection Hok as Hok. unfold at_end, is_char in Hend. congruence. }
  destruct (Nat.ltb_spec (S (pos st)) (String.length (input st))) as [Hlt'|Hge].
  - destruct (String.get (S (pos st)) (input st)) eqn:Hget; [reflexivity|].
    apply get_None_iff in Hget. lia.
  - assert (String.get (S (pos st)) (input st) = None) as -> by (apply get_None_iff; lia).
    replace (S (pos st) =? String.length (input st))%nat with true
      by (symmetry; apply Nat.eqb_eq; lia).
    reflexivity.
Qed.

Lemma extends_advance_char (st : interp) (c : ascii) :
  is_char st c = true -> c <> NUL -> extends st (advance st).
Proof. intros H Hc. apply extends_advance. eapply is_char_not_at_end; eauto. Qed.

Lemma extends_skip_whitespace_loop (n : nat) (st : interp) :
  extends st (skip_whitespace_loop n st).
Proof.
  revert st. induction n as [|n IH]; intros st; simpl; [apply extends_refl|].
  destruct (at_end st) eqn:Hend; simpl; [apply extends_refl|].
  destruct (isspace (current_char st)); [|apply extends_refl].
  eapply extends_trans; [apply extends_advance, Hend | apply IH].
Qed.

Lemma extends_skip_whitespace (st : interp) : extends st (skip_whitespace st).
Proof. apply extends_skip_whitespace_loop. Qed.

Lemma extends_scan_loop (test : ascii -> bool) (n : nat) (acc : string) (st : interp) :
  extends st (snd (scan_loop test n acc st)).
Proof.
  revert acc st. induction n as [|n IH]; intros acc st; simpl; [apply extends_refl|].
  destruct (at_end st) eqn:Hend; simpl; [apply extends_refl|].
  destruct (test (current_char st)); [|apply extends_refl].
  eapply extends_trans; [apply extends_advance, Hend | apply IH].
Qed.

Lemma extends_identifier (st st' : interp) (name : string) :
  identifier st = (name, st') -> extends st st'.
Proof.
  unfold identifier. intros H.
  pose proof (extends_scan_loop (fun c => isalnum c || Ascii.eqb c "_")
                (rounds st) EmptyString st) as He.
  rewrite H in He. exact He.
Qed.

Lemma preserved_integer (st : interp) : preserved st (integer st).
Proof.
  unfold integer.
  pose proof (extends_scan_loop isdigit (rounds st) EmptyString st) as He.
  destruct (scan_loop isdigit (rounds st) EmptyString st) as [digits st'].
  destruct (stoi digits); exact He.
Qed.

(** ** The scanning loops run to their exit test *)

(** After [n] rounds at most [length - pos - n] characters are left, so the
    loop that has used all its rounds stands at the end of the text. *)
Lemma advance_at_end (st : interp) :
  (String.length (input st) <= S (pos st))%nat -> at_end (advance st) = true.
Proof.
  intros H. unfold at_end, is_char, advance. simpl.
  replace (S (pos st) <? String.length (input st))%nat with false
    by (symmetry; apply Nat.ltb_ge; lia).
  reflexivity.
Qed.

Lemma scan_loop_exit (test : ascii -> bool) (n : nat) (acc : string) (st : interp) :
  (String.length (input st) - pos st < n)%nat ->
  let st' := snd (scan_loop test n acc st) in
  negb (at_end st') && test (current_char st') = false.
Proof.
  revert acc st. induction n as [|n IH]; intros acc st Hn; [lia|].
  simpl. destruct (negb (at_end st) && test (current_char st)) eqn:Hcond;
    [|exact Hcond].
  destruct n as [|n].
  - simpl. rewrite advance_at_end by lia. reflexivity.
  - apply IH. unfold advance. simpl. lia.
Qed.

Lemma skip_whitespace_exit (st : interp) :
  let st' := skip_whitespace st in
  negb (at_end st') && isspace (current_char st') = false.
Proof.
  unfold skip_whitespace, rounds.
  assert (forall n st, (String.length (input st) - pos st < n)%nat ->
            negb (at_end (skip_whitespace_loop n st))
            && isspace (current_char (skip_whitespace_loop n st)) = false) as H.
  { clear st. induction n as [|n IH]; intros st Hn; [lia|].
    simpl. destruct (negb (at_end st) && isspace (current_char st)) eqn:Hcond;
      [|exact Hcond].
    destruct n as [|n].
    - simpl. rewrite advance_at_end by lia. reflexivity.
    - apply IH. unfold advance. simpl. lia. }
  apply H. lia.
Qed.

Lemma identifier_exit (st : interp) :
  let st' := snd (identifier st) in
  negb (at_end st')
  && (isalnum (current_char st') || Ascii.eqb (current_char st') "_") = false.
Proof.
  unfold identifier.
  apply (scan_loop_exit (fun c => isalnum c || Ascii.eqb c "_")).
  unfold rounds. lia.
Qed.

Lemma integer_exit (st : interp) (v : Z) (st' : interp) :
  integer st = Ok v st' ->
  negb (at_end st') && isdigit (current_char st') = false.
Proof.
  unfold integer.
  pose proof (scan_loop_exit isdigit (rounds st) EmptyString st) as H.
  destruct (scan_loop isdigit (rounds st) EmptyString st) as [digits st1].
  destruct (stoi digits); intros [= _ <-]. apply H. unfold rounds. lia.
Qed.

(** ** One step of each mutually recursive function *)

Lemma expr_S (fuel : nat) (st : interp) :
  expr (S fuel) st = bind (term fuel st) (fun result st => expr_loop fuel result st).
Proof. reflexivity. Qed.

Lemma expr_loop_S (fuel : nat) (result : Z) (st : interp) :
  expr_loop (S fuel) result st =
  if is_char st "+" || is_char st "-" then
    bind (term fuel (advance st)) (fun v st1 =>
    bind (int_value (of_checked (if Ascii.eqb (current_char st) "+"
                                 then result + v else result - v)) st1)
         (fun result st2 => expr_loop fuel result st2))
  else Ok result st.
Proof. reflexivity. Qed.

Lemma term_S (fuel : nat) (st : interp) :
  term (S fuel) st = bind (factor fuel st) (fun result st => term_loop fuel result st).
Proof. reflexivity. Qed.

Lemma term_loop_S (fuel : nat) (result : Z) (st : interp) :
  term_loop (S fuel) result st =
  if is_char st "*" || is_char st "/" then
    bind (factor fuel (advance st)) (fun v st1 =>
    bind (int_value (if Ascii.eqb (current_char st) "*"
                     then of_checked (result * v) else int_div result v) st1)
         (fun result st2 => term_loop fuel result st2))
  else Ok result st.
Proof. reflexivity. Qed.

Lemma call_function_S (fuel : nat) (func_name : string) (st : interp) :
  call_function (S fuel) func_name st =
  match functions st !! func_name with
  | None => Throw UndefinedSymbol st
  | Some func =>
      bind (call_prologue (call_args fuel) func st)
           (fun args st => call_body (expr fuel) func args st)
  end.
Proof. reflexivity. Qed.

Lemma call_args_S (fuel : nat) (params : list string) (args : list Z) (st : interp) :
  call_args (S fuel) params args st =
  match params with
  | [] => Ok args st
  | _ :: params' =>
      bind (if (0 <? length args)%nat then
              if negb (is_char st ",") then Throw SyntaxError st
              else Ok tt (advance st)
            else Ok tt st)
           (fun _ st1 =>
              bind (expr fuel st1) (fun v st2 => call_args fuel params' (args ++ [v]) st2))
  end.
Proof. reflexivity. Qed.

Lemma factor_S (fuel : nat) (st : interp) :
  factor (S fuel) st =
  let st0 := skip_whitespace st in
  if isdigit (current_char st0) then integer st0
  else if isalpha (current_char st0) then
    let st1 := snd (identifier st0) in
    let var_name := fst (identifier st0) in
    if is_char st1 "[" then
      bind (expr fuel (advance st1)) (fun index st2 =>
        if negb (is_char st2 "]") then Throw SyntaxError st2
        else array_read (arrays (advance st2) !! var_name) index (advance st2))
    else
      match variables st1 !! var_name with
      | Some v => Ok v st1
      | None =>
          match functions st1 !! var_name with
          | Some _ => call_function fuel var_name st1
          | None => Throw UndefinedSymbol st1
          end
      end
  else if is_char st0 "(" then
    bind (expr fuel (advance st0)) (fun result st2 =>
      if negb (is_char st2 ")") then Throw SyntaxError st2
      else Ok result (advance st2))
  else Throw SyntaxError st0.
Proof.
  cbn [factor]. cbv zeta.
  destruct (identifier (skip_whitespace st)) as [var_name st1]. reflexivity.
Qed.

(** ** Expressions leave the text and the tables alone *)

Lemma NUL_neq (c : ascii) : Ascii.eqb c NUL = false -> c <> NUL.
Proof. apply Ascii.eqb_neq. Qed.

Create HintDb frame.
#[local] Hint Resolve extends_refl extends_skip_whitespace : frame.
#[local] Hint Extern 1 (_ <> NUL) => (apply NUL_neq; reflexivity) : frame.

Lemma preserved_int_value (r : int_result) (st : interp) : preserved st (int_value r st).
Proof. destruct r; simpl; auto with frame. Qed.

Lemma preserved_array_read (elements : option (list Z)) (index : Z) (st : interp) :
  preserved st (array_read elements index st).
Proof.
  unfold array_read. destruct elements as [elements|]; simpl; auto with frame.
  destruct ((index <? 0) || (Z.of_nat (length elements) <=? index)); simpl; auto with frame.
  destruct (elements !! Z.to_nat index); simpl; auto with frame.
Qed.

Lemma cursor_ok_enter_body (func : Function) (args : list Z) (st inside : interp) :
  enter_body func args st = Some inside ->
  cursor_ok inside /\ input inside = body func /\ pos inside = 0%nat /\
  functions inside = functions st /\ arrays inside = arrays st /\
  bind_parameters (parameters func) args (variables st) = Some (variables inside).
Proof.
  unfold enter_body.
  destruct (bind_parameters (parameters func) args (variables st)) as [bound|];
    [|discriminate].
  intros [= <-]. unfold cursor_ok, string_at. cbn [input pos current_char variables].
  repeat split. destruct (body func); reflexivity.
Qed.

(** Leaving the body puts back the text, the position and the variables that
    were saved; the other two tables are those the body left. *)
Lemma leave_body_extends (saved st3 st' : interp) :
  leave_body saved st3 = Some st' ->
  functions st3 = functions saved -> arrays st3 = arrays saved ->
  extends saved st'.
Proof.
  unfold leave_body, set_cursor. intros H Hf Ha.
  destruct (string_at (input saved) (pos saved)) as [c|] eqn:Hc; [|discriminate].
  injection H as <-. split; [repeat split; assumption|].
  intros _. exact Hc.
Qed.

Lemma leave_body_exact (saved st3 : interp) :
  cursor_ok saved ->
  functions st3 = functions saved -> arrays st3 = arrays saved ->
  leave_body saved st3 = Some saved.
Proof.
  unfold leave_body, set_cursor, cursor_ok. intros -> Hf Ha.
  unfold set_variables. cbn [input pos current_char variables functions arrays].
  rewrite Hf, Ha. destruct saved; reflexivity.
Qed.

Lemma preserved_call_body (expr : interp -> outcome Z) (func : Function)
    (args : list Z) (st : interp) :
  (forall st1, preserved st1 (expr st1)) ->
  preserved st (call_body expr func args st).
Proof.
  intros IH. unfold call_body.
  destruct (enter_body func args st) as [inside|] eqn:Henter; [|exact I].
  apply cursor_ok_enter_body in Henter as (_ & _ & _ & Hf & Ha & _).
  specialize (IH inside).
  destruct (expr inside) as [v st3|e st3|u|]; try exact I;
    destruct IH as [(_ & _ & Hf3 & Ha3) _];
    (destruct (leave_body st st3) as [st'|] eqn:Hleave; [|exact I]);
    simpl; eapply leave_body_extends; eauto; congruence.
Qed.

Lemma preserved_call_prologue
    (call_args : list string -> list Z -> interp -> outcome (list Z))
    (func : Function) (st : interp) :
  (forall params args st1, preserved st1 (call_args params args st1)) ->
  preserved st (call_prologue call_args func st).
Proof.
  intros IH. unfold call_prologue.
  eapply preserved_extends; [apply extends_skip_whitespace|].
  set (st0 := skip_whitespace st).
  destruct (is_char st0 "(") eqn:Hopen; simpl; [|auto with frame].
  eapply preserved_extends; [eapply extends_advance_char; eauto with frame|].
  apply preserved_bind; [apply IH|]. intros args st1 _.
  destruct (is_char st1 ")") eqn:Hclose; simpl; [|auto with frame].
  eapply extends_advance_char; eauto with frame.
Qed.

Theorem expr_family_preserved (fuel : nat) :
  (forall st, preserved st (expr fuel st)) /\
  (forall result st, preserved st (expr_loop fuel result st)) /\
  (forall st, preserved st (term fuel st)) /\
  (forall result st, preserved st (term_loop fuel result st)) /\
  (forall st, preserved st (factor fuel st)) /\
  (forall func_name st, preserved st (call_function fuel func_name st)) /\
  (forall params args st, preserved st (call_args fuel params args st)).
Proof.
  induction fuel as [|fuel (IHexpr & IHexpr_loop & IHterm & IHterm_loop & IHfactor
                            & IHcall & IHargs)].
  { repeat split; intros; exact I. }
  repeat split.
  - intros st. rewrite expr_S. apply preserved_bind; auto.
  - intros result st. rewrite expr_loop_S.
    destruct (is_char st "+") eqn:Hplus; [|destruct (is_char st "-") eqn:Hminus];
      cbn [orb]; [| |simpl; auto with frame];
      (eapply preserved_extends; [eapply extends_advance_char; eauto with frame|]);
      (apply preserved_bind; [apply IHterm|]); intros v st1 _;
      (apply preserved_bind; [apply preserved_int_value|]); auto.
  - intros st. rewrite term_S. apply preserved_bind; auto.
  - intros result st. rewrite term_loop_S.
    destruct (is_char st "*") eqn:Hstar; [|destruct (is_char st "/") eqn:Hslash];
      cbn [orb]; [| |simpl; auto with frame];
      (eapply preserved_extends; [eapply extends_advance_char; eauto with frame|]);
      (apply preserved_bind; [apply IHfactor|]); intros v st1 _;
      (apply preserved_bind; [apply preserved_int_value|]); auto.
  - intros st. rewrite factor_S. cbv zeta.
    eapply preserved_extends; [apply extends_skip_whitespace|].
    set (st0 := skip_whitespace st).
    destruct (isdigit (current_char st0)); [apply preserved_integer|].
    destruct (isalpha (current_char st0)).
    + pose proof (extends_identifier st0) as Hid.
      destruct (identifier st0) as [var_name st1]. cbn [fst snd].
      specialize (Hid st1 var_name eq_refl).
      eapply preserved_extends; [exact Hid|].
      destruct (is_char st1 "[") eqn:Hopen.
      * eapply preserved_extends; [eapply extends_advance_char; eauto with frame|].
        apply preserved_bind; [apply IHexpr|]. intros index st2 _.
        destruct (is_char st2 "]") eqn:Hclose; simpl; [|auto with frame].
        eapply preserved_extends; [eapply extends_advance_char; eauto with frame|].
        apply preserved_array_read.
      * destruct (variables st1 !! var_name); [simpl; auto with frame|].
        destruct (functions st1 !! var_name); [apply IHcall|simpl; auto with frame].
    + destruct (is_char st0 "(") eqn:Hopen; [|simpl; auto with frame].
      eapply preserved_extends; [eapply extends_advance_char; eauto with frame|].
      apply preserved_bind; [apply IHexpr|]. intros result st2 _.
      destruct (is_char st2 ")") eqn:Hclose; simpl; [|auto with frame].
      eapply extends_advance_char; eauto with frame.
  - intros func_name st. rewrite call_function_S.
    destruct (functions st !! func_name) as [func|]; [|simpl; auto with frame].
    apply preserved_bind; [apply preserved_call_prologue, IHargs|].
    intros args st1 _. apply preserved_call_body, IHexpr.
  - intros params args st. rewrite call_args_S.
    destruct params as [|p params]; [simpl; auto with frame|].
    apply preserved_bind.
    + destruct (0 <? length args)%nat; [|simpl; auto with frame].
      destruct (is_char st ",") eqn:Hcomma; simpl; [|auto with frame].
      eapply extends_advance_char; eauto with frame.
    + intros _ st1 _. apply preserved_bind; [apply IHexpr|]. auto.
Qed.

Lemma expr_preserved (fuel : nat) (st : interp) : preserved st (expr fuel st).
Proof. apply expr_family_preserved. Qed.

Lemma call_args_preserved (fuel : nat) (params : list string) (args : list Z)
    (st : interp) :
  preserved st (call_args fuel params args st).
Proof. apply expr_family_preserved. Qed.

Lemma call_function_preserved (fuel : nat) (func_name : string) (st : interp) :
  preserved st (call_function fuel func_name st).
Proof. apply expr_family_preserved. Qed.

(** ** Arguments and parameters *)

Lemma call_args_length (fuel : nat) (params : list string) (args args' : list Z)
    (st st' : interp) :
  call_args fuel params args st = Ok args' st' ->
  length args' = (length args + length params)%nat.
Proof.
  revert params args st. induction fuel as [|fuel IH]; intros params args st;
    [discriminate|].
  rewrite call_args_S. destruct params as [|p params].
  - intros [= <- _]. simpl. lia.
  - destruct (if (0 <? length args)%nat
              then if negb (is_char st ",") then Throw SyntaxError st
                   else Ok tt (advance st)
              else Ok tt st) as [[] st1|?|?|]; try discriminate.
    cbn [bind]. destruct (expr fuel st1) as [v st2|?|?|]; try discriminate.
    cbn [bind]. intros H. apply IH in H. rewrite H, length_app. simpl. lia.
Qed.

Lemma bind_parameters_lookup (params : list string) (args : list Z)
    (vars bound : gmap string Z) :
  bind_parameters params args vars = Some bound ->
  (forall (i : nat) (p : string) (a : Z),
      params !! i = Some p -> args !! i = Some a ->
      p ∉ drop (S i) params -> bound !! p = Some a) /\
  (forall x : string, x ∉ params -> bound !! x = vars !! x).
Proof.
  revert args vars. induction params as [|q params IH]; intros args vars.
  - intros [= <-]. split; [intros i p a H; discriminate H | reflexivity].
  - destruct args as [|b args]; [discriminate|]. cbn [bind_parameters]. intros H.
    destruct (IH _ _ H) as [IHin IHout]. split.
    + intros [|i] p a Hp Ha Hlater.
      * injection Hp as <-. injection Ha as <-. cbn [drop] in Hlater.
        rewrite (IHout q Hlater). apply lookup_insert_eq.
      * eapply IHin; eauto.
    + intros x Hx. apply not_elem_of_cons in Hx as [Hne Hx].
      rewrite (IHout x Hx). apply lookup_insert_ne. congruence.
Qed.

Lemma isalpha_not_digit (c : ascii) : isalpha c = true -> isdigit c = false.
Proof.
  destruct c as [[] [] [] [] [] [] [] []]; cbv; intros H;
    solve [discriminate H | reflexivity].
Qed.

(** ** More fuel changes no result *)

Lemma stable_refl {A : Type} (r : outcome A) : stable r r.
Proof. intros _. reflexivity. Qed.

Lemma stable_bind {A B : Type} (r r' : outcome A) (k k' : A -> interp -> outcome B) :
  stable r r' ->
  (forall a st, stable (k a st) (k' a st)) ->
  stable (bind r k) (bind r' k').
Proof.
  intros Hr Hk H. destruct r as [a st|e st|u|]; cbn [bind] in *.
  - rewrite Hr by discriminate. cbn [bind]. apply Hk, H.
  - rewrite Hr by discriminate. reflexivity.
  - rewrite Hr by discriminate. reflexivity.
  - exfalso. apply H. reflexivity.
Qed.

Lemma stable_call_prologue
    (args1 args2 : list string -> list Z -> interp -> outcome (list Z))
    (func : Function) (st : interp) :
  (forall params args st1, stable (args1 params args st1) (args2 params args st1)) ->
  stable (call_prologue args1 func st) (call_prologue args2 func st).
Proof.
  intros H. unfold call_prologue.
  destruct (negb (is_char (skip_whitespace st) "(")); [apply stable_refl|].
  apply stable_bind; [apply H|]. intros; apply stable_refl.
Qed.

Lemma stable_call_body (expr1 expr2 : interp -> outcome Z) (func : Function)
    (args : list Z) (st : interp) :
  (forall st1, stable (expr1 st1) (expr2 st1)) ->
  stable (call_body expr1 func args st) (call_body expr2 func args st).
Proof.
  intros H. unfold call_body.
  destruct (enter_body func args st) as [inside|]; [|apply stable_refl].
  specialize (H inside). intros Hne.
  destruct (expr1 inside) as [v st3|e st3|u|];
    try (rewrite H by discriminate; reflexivity).
  exfalso. apply Hne. reflexivity.
Qed.

Theorem fuel_monotone (fuel : nat) :
  (forall st, stable (expr fuel st) (expr (S fuel) st)) /\
  (forall result st, stable (expr_loop fuel result st) (expr_loop (S fuel) result st)) /\
  (forall st, stable (term fuel st) (term (S fuel) st)) /\
  (forall result st, stable (term_loop fuel result st) (term_loop (S fuel) result st)) /\
  (forall st, stable (factor fuel st) (factor (S fuel) st)) /\
  (forall name st, stable (call_function fuel name st) (call_function (S fuel) name st)) /\
  (forall params args st,
      stable (call_args fuel params args st) (call_args (S fuel) params args st)).
Proof.
  induction fuel as [|fuel (IHexpr & IHexpr_loop & IHterm & IHterm_loop & IHfactor
                            & IHcall & IHargs)].
  { repeat split; intros; intros H; exfalso; apply H; reflexivity. }
  repeat split.
  - intros st. rewrite (expr_S (S fuel)), (expr_S fuel). apply stable_bind; auto.
  - intros result st. rewrite (expr_loop_S (S fuel)), (expr_loop_S fuel).
    destruct (is_char st "+" || is_char st "-"); [|apply stable_refl].
    apply stable_bind; [apply IHterm|]. intros v st1.
    apply stable_bind; [apply stable_refl|]. auto.
  - intros st. rewrite (term_S (S fuel)), (term_S fuel). apply stable_bind; auto.
  - intros result st. rewrite (term_loop_S (S fuel)), (term_loop_S fuel).
    destruct (is_char st "*" || is_char st "/"); [|apply stable_refl].
    apply stable_bind; [apply IHfactor|]. intros v st1.
    apply stable_bind; [apply stable_refl|]. auto.
  - intros st. rewrite (factor_S (S fuel)), (factor_S fuel). cbv zeta.
    set (st0 := skip_whitespace st).
    destruct (isdigit (current_char st0)); [apply stable_refl|].
    destruct (isalpha (current_char st0)).
    + destruct (is_char (identifier st0).2 "[").
      * apply stable_bind; [apply IHexpr|]. intros; apply stable_refl.
      * destruct (variables (identifier st0).2 !! (identifier st0).1);
          [apply stable_refl|].
        destruct (functions (identifier st0).2 !! (identifier st0).1);
          [apply IHcall|apply stable_refl].
    + destruct (is_char st0 "("); [|apply stable_refl].
      apply stable_bind; [apply IHexpr|]. intros; apply stable_refl.
  - intros name st. rewrite (call_function_S (S fuel)), (call_function_S fuel).
    destruct (functions st !! name) as [func|]; [|apply stable_refl].
    apply stable_bind; [apply stable_call_prologue, IHargs|].
    intros args st1. apply stable_call_body, IHexpr.
  - intros params args st. rewrite (call_args_S (S fuel)), (call_args_S fuel).
    destruct params as [|p params]; [apply stable_refl|].
    apply stable_bind; [apply stable_refl|]. intros _ st1.
    apply stable_bind; [apply IHexpr|]. auto.
Qed.

(** A value or an exception obtained with some fuel is obtained with any
    larger fuel. *)
Corollary expr_more_fuel (fuel extra : nat) (st : interp) :
  expr fuel st <> OutOfFuel -> expr (extra + fuel) st = expr fuel st.
Proof.
  intros H. induction extra as [|extra IH]; [reflexivity|].
  cbn [Nat.add]. rewrite <- IH. apply fuel_monotone. rewrite IH. exact H.
Qed.

(** ** Function calls *)

Lemma call_prologue_preserved (fuel : nat) (func : Function) (st : interp) :
  preserved st (call_prologue (call_args fuel) func st).
Proof. apply preserved_call_prologue. intros. apply call_args_preserved. Qed.

(** The body of a call ends in the very state it was entered from. *)
Lemma call_body_exact (fuel : nat) (func : Function) (args : list Z)
    (st inside : interp) :
  cursor_ok st ->
  enter_body func args st = Some inside ->
  call_body (expr fuel) func args st =
  match expr fuel inside with
  | Ok result _ => Ok result st
  | Throw e _ => Throw e st
  | Undefined u => Undefined u
  | OutOfFuel => OutOfFuel
  end.
Proof.
  intros Hok Henter. unfold call_body. rewrite Henter.
  apply cursor_ok_enter_body in Henter as (_ & _ & _ & Hf & Ha & _).
  pose proof (expr_preserved fuel inside) as Hp.
  destruct (expr fuel inside) as [v st3|e st3|u|]; try reflexivity;
    destruct Hp as [(_ & _ & Hf3 & Ha3) _];
    rewrite leave_body_exact by congruence; reflexivity.
Qed.

(** When the evaluation of the body throws, whatever the exception, the
    call throws the same exception from exactly the state the caller had
    when the body was entered: the caller's text, the cursor just past the
    closing parenthesis of the call, and the caller's variable table, which is
    also the table from before the call. *)
Theorem call_failure_restores_caller (fuel : nat) (func_name : string)
    (func : Function) (args : list Z) (st st2 inside st3 : interp) (e : error) :
  cursor_ok st ->
  functions st !! func_name = Some func ->
  call_prologue (call_args fuel) func st = Ok args st2 ->
  enter_body func args st2 = Some inside ->
  expr fuel inside = Throw e st3 ->
  call_function (S fuel) func_name st = Throw e st2 /\
  input st2 = input st /\ variables st2 = variables st /\
  functions st2 = functions st /\ arrays st2 = arrays st /\ cursor_ok st2.
Proof.
  intros Hok Hfunc Hpro Henter Hbody.
  pose proof (call_prologue_preserved fuel func st) as Hp.
  rewrite Hpro in Hp. destruct Hp as [(Hi & Hv & Hf & Ha) Hc].
  split; [|repeat split; auto].
  rewrite call_function_S, Hfunc, Hpro. cbn [bind].
  rewrite (call_body_exact fuel func args st2 inside) by auto.
  rewrite Hbody. reflexivity.
Qed.

Lemma call_failure_restores_caller_witness :
  let after := mkInterp "g(1)+2" 4 "+" {[ "x"%string := 3 ]}
                 {[ "g"%string := mkFunction ["x"%string] "x+y" ]} ∅ in
  call_function 6 "g" failing_call = Throw UndefinedSymbol after /\
  input after = input failing_call /\ variables after = variables failing_call /\
  functions after = functions failing_call /\ arrays after = arrays failing_call /\
  cursor_ok after.
Proof.
  cbv zeta.
  apply (call_failure_restores_caller 5 "g" (mkFunction ["x"%string] "x+y") [1]
           failing_call _
           (mkInterp "x+y" 0 "x" {[ "x"%string := 1 ]} (functions failing_call) ∅)
           (mkInterp "x+y" 3 NUL {[ "x"%string := 1 ]} (functions failing_call) ∅)
           UndefinedSymbol);
    vm_compute; reflexivity.
Defined.

(** C6. A call that returns found its function in the table; it evaluated
    the body, from its first character, as one [expr], in a variable table
    where each parameter holds its argument (the last argument of that name,
    should a name repeat) over the caller's variables; and it returns the
    value of that [expr] in exactly the state the caller had past the closing
    parenthesis of the call, whose text and tables are those from before the
    call. *)
Theorem call_binds_parameters_and_restores (fuel : nat) (func_name : string)
    (st st' : interp) (result : Z) :
  cursor_ok st ->
  call_function (S fuel) func_name st = Ok result st' ->
  exists (func : Function) (args : list Z) (inside st3 : interp),
    functions st !! func_name = Some func /\
    call_prologue (call_args fuel) func st = Ok args st' /\
    length args = length (parameters func) /\
    enter_body func args st' = Some inside /\
    input inside = body func /\ pos inside = 0%nat /\ cursor_ok inside /\
    (forall (i : nat) (p : string) (a : Z),
        parameters func !! i = Some p -> args !! i = Some a ->
        p ∉ drop (S i) (parameters func) -> variables inside !! p = Some a) /\
    (forall x : string,
        x ∉ parameters func -> variables inside !! x = variables st !! x) /\
    expr fuel inside = Ok result st3 /\
    input st' = input st /\ variables st' = variables st /\
    functions st' = functions st /\ arrays st' = arrays st /\ cursor_ok st'.
Proof.
  intros Hok Hcall. rewrite call_function_S in Hcall.
  destruct (functions st !! func_name) as [func|] eqn:Hfunc; [|discriminate].
  pose proof (call_prologue_preserved fuel func st) as Hp.
  destruct (call_prologue (call_args fuel) func st) as [args st2|?|?|] eqn:Hpro;
    try discriminate.
  cbn [bind] in Hcall. destruct Hp as [(Hi & Hv & Hf & Ha) Hc].
  assert (length args = length (parameters func)) as Hlen.
  { unfold call_prologue in Hpro.
    destruct (negb (is_char (skip_whitespace st) "(")); [discriminate|].
    destruct (call_args fuel (parameters func) [] (advance (skip_whitespace st)))
      as [args' st1|?|?|] eqn:Hargs; try discriminate.
    cbn [bind] in Hpro. destruct (negb (is_char st1 ")")); [discriminate|].
    injection Hpro as <- _. apply call_args_length in Hargs. exact Hargs. }
  destruct (enter_body func args st2) as [inside|] eqn:Henter;
    [|unfold call_body in Hcall; rewrite Henter in Hcall; discriminate].
  rewrite (call_body_exact fuel func args st2 inside) in Hcall by auto.
  destruct (expr fuel inside) as [v st3|?|?|] eqn:Hbody; try discriminate.
  injection Hcall as <- <-.
  destruct (cursor_ok_enter_body _ _ _ _ Henter) as (Hcin & Hin & Hpos & _ & _ & Hbound).
  destruct (bind_parameters_lookup _ _ _ _ Hbound) as [Hparams Hothers].
  exists func, args, inside, st3.
  repeat (split; [solve [auto]|]).
  split; [|repeat split; auto].
  intros x Hx. rewrite (Hothers x Hx). congruence.
Qed.

Lemma call_binds_parameters_and_restores_witness :
  exists (func : Function) (args : list Z) (inside st3 : interp),
    let after := mkInterp "f(5)" 4 NUL {[ "x"%string := 3 ]}
                   {[ "f"%string := mkFunction ["x"%string] "x*x" ]} ∅ in
    functions squaring_call !! "f"%string = Some func /\
    call_prologue (call_args 5) func squaring_call = Ok args after /\
    length args = length (parameters func) /\
    enter_body func args after = Some inside /\
    input inside = body func /\ pos inside = 0%nat /\ cursor_ok inside /\
    (forall (i : nat) (p : string) (a : Z),
        parameters func !! i = Some p -> args !! i = Some a ->
        p ∉ drop (S i) (parameters func) -> variables inside !! p = Some a) /\
    (forall x : string,
        x ∉ parameters func -> variables inside !! x = variables squaring_call !! x) /\
    expr 5 inside = Ok 25 st3 /\
    input after = input squaring_call /\ variables after = variables squaring_call /\
    functions after = functions squaring_call /\ arrays after = arrays squaring_call /\
    cursor_ok after.
Proof.
  apply (call_binds_parameters_and_restores 5 "f" squaring_call); vm_compute; reflexivity.
Defined.

(** ** Arrays *)

(** C8. In [factor], on an identifier: followed by ['['], with an index
    that evaluates and a closing [']'], it reads the array of that name, giving
    the element stored at the index when the index is in [0, len), OutOfBounds
    when it is not, UndefinedSymbol when no array has that name; not followed
    by ['['], UndefinedSymbol when the name is neither a variable nor a
    function. And on an array of length 3, after the statement [a[2] = 7] the
    expression [a[2]] reads 7. *)
Theorem factor_reads_arrays (fuel : nat) (st : interp) :
  let st0 := skip_whitespace st in
  let name := fst (identifier st0) in
  let st1 := snd (identifier st0) in
  isalpha (current_char st0) = true ->
  (is_char st1 "[" = true ->
   forall (index : Z) (st2 : interp),
     expr fuel (advance st1) = Ok index st2 ->
     is_char st2 "]" = true ->
     factor (S fuel) st =
     match arrays st !! name with
     | Some elements =>
         if (0 <=? index) && (index <? Z.of_nat (length elements))
         then Ok (nth (Z.to_nat index) elements 0) (advance st2)
         else Throw OutOfBounds (advance st2)
     | None => Throw UndefinedSymbol (advance st2)
     end) /\
  (is_char st1 "[" = false ->
   variables st !! name = None -> functions st !! name = None ->
   factor (S fuel) st = Throw UndefinedSymbol st1) /\
  (forall x y z : Z,
     exists st', interpret 20 "a[2] = 7; y = a[2]" (with_array x y z) = Ok None st' /\
                 arrays st' !! "a"%string = Some [x; y; 7] /\
                 variables st' !! "y"%string = Some 7).
Proof.
  intros st0 name st1 Halpha.
  pose proof (extends_skip_whitespace st) as [(_ & Hv0 & Hf0 & Ha0) _]. fold st0 in Hv0, Hf0, Ha0.
  pose proof (extends_identifier st0 st1 name) as Hid.
  destruct Hid as [(_ & Hv1 & Hf1 & Ha1) _];
    [subst name st1; destruct (identifier st0); reflexivity|].
  split; [|split].
  - intros Hopen index st2 Hindex Hclose.
    rewrite factor_S. cbv zeta. fold st0 st1 name.
    rewrite (isalpha_not_digit _ Halpha), Halpha, Hopen, Hindex. cbn [bind].
    rewrite Hclose. cbn [negb].
    pose proof (expr_preserved fuel (advance st1)) as Hp. rewrite Hindex in Hp.
    destruct Hp as [(_ & _ & _ & Ha2) _].
    replace (arrays (advance st2)) with (arrays st)
      by (change (arrays (advance st2)) with (arrays st2);
          change (arrays (advance st1)) with (arrays st1) in Ha2; congruence).
    unfold array_read. destruct (arrays st !! name) as [elements|]; [|reflexivity].
    destruct (Z.ltb_spec index 0) as [Hneg|Hpos]; cbn [orb].
    + replace (0 <=? index) with false by (symmetry; apply Z.leb_gt; lia). reflexivity.
    + replace (0 <=? index) with true by (symmetry; apply Z.leb_le; lia). cbn [andb].
      destruct (Z.leb_spec (Z.of_nat (length elements)) index) as [Hge|Hlt].
      * replace (index <? Z.of_nat (length elements)) with false
          by (symmetry; apply Z.ltb_ge; lia). reflexivity.
      * replace (index <? Z.of_nat (length elements)) with true
          by (symmetry; apply Z.ltb_lt; lia).
        rewrite nth_lookup.
        destruct (lookup_lt_is_Some_2 elements (Z.to_nat index)) as [v ->]; [lia|].
        reflexivity.
  - intros Hopen Hvar Hfun.
    rewrite factor_S. cbv zeta. fold st0 st1 name.
    rewrite (isalpha_not_digit _ Halpha), Halpha, Hopen.
    replace (variables st1 !! name) with (@None Z) by (rewrite <- Hvar; congruence).
    replace (functions st1 !! name) with (@None Function) by (rewrite <- Hfun; congruence).
    reflexivity.
  - intros x y z.
    exists (mkInterp "a[2] = 7; y = a[2]" 18 NUL {[ "y"%string := 7 ]} ∅
                     {[ "a"%string := [x; y; 7] ]}).
    split; [vm_compute; reflexivity|]. split; reflexivity.
Qed.

Lemma factor_reads_arrays_witness :
  let st := mkInterp "a[1]" 0 "a" ∅ ∅ {[ "a"%string := [4; 5; 6] ]} in
  isalpha (current_char (skip_whitespace st)) = true /\
  factor 6 st = Ok 5 (mkInterp "a[1]" 4 NUL ∅ ∅ {[ "a"%string := [4; 5; 6] ]}).
Proof.
  cbv zeta. split; [reflexivity|].
  pose proof (factor_reads_arrays 5
                (mkInterp "a[1]" 0 "a" ∅ ∅ {[ "a"%string := [4; 5; 6] ]})) as H.
  cbv zeta in H. destruct (H eq_refl) as [Hread _].
  specialize (Hread eq_refl 1 (mkInterp "a[1]" 3 "]" ∅ ∅ {[ "a"%string := [4; 5; 6] ]})).
  vm_compute in Hread. vm_compute. exact (Hread eq_refl eq_refl).
Defined.

Lemma read_past_the_end_is_out_of_bounds :
  interpret 20 "y = a[3]" (with_array 0 0 0)
  = Ok (Some OutOfBounds) (mkInterp "y = a[3]" 8 NUL ∅ ∅ {[ "a"%string := [0; 0; 0] ]}).
Proof. vm_compute. reflexivity. Qed.

(** ** Statements never declare anything *)

Lemma no_declaration_refl (st : interp) : no_declaration st st.
Proof. repeat split; auto. Qed.

Lemma no_declaration_trans (st1 st2 st3 : interp) :
  no_declaration st1 st2 -> no_declaration st2 st3 -> no_declaration st1 st3.
Proof.
  intros (Hi & Hf & Ha) (Hi' & Hf' & Ha'). repeat split; try congruence. auto.
Qed.

Lemma extends_no_declaration (st st' : interp) : extends st st' -> no_declaration st st'.
Proof.
  intros [(Hi & _ & Hf & Ha) _]. repeat split; auto. intros name. rewrite Ha. auto.
Qed.

Lemma declares_nothing_after {A : Type} (st st1 : interp) (r : outcome A) :
  no_declaration st st1 -> declares_nothing st1 r -> declares_nothing st r.
Proof. destruct r; simpl; eauto using no_declaration_trans. Qed.

Lemma declares_nothing_bind {A B : Type} (st : interp) (r : outcome A)
    (k : A -> interp -> outcome B) :
  preserved st r ->
  (forall a st1, declares_nothing st1 (k a st1)) ->
  declares_nothing st (bind r k).
Proof.
  destruct r as [a st1|e st1|u|]; simpl; intros H Hk; auto using extends_no_declaration.
  eapply declares_nothing_after; eauto using extends_no_declaration.
Qed.

Lemma is_char_current (st : interp) (c : ascii) :
  is_char st c = true -> current_char st = c.
Proof. apply Ascii.eqb_eq. Qed.

(** The branches of [statement] that declare a function or an array sit
    behind [isalpha(current_char)], which holds of both 'f' and 'a': they are
    never taken, so [statement] adds nothing to either table. *)
Theorem statement_never_declares (fuel : nat) (st : interp) :
  declares_nothing st (statement fuel st).
Proof.
  unfold statement.
  eapply declares_nothing_after;
    [apply extends_no_declaration, extends_skip_whitespace|].
  set (st0 := skip_whitespace st).
  destruct (at_end st0); [apply no_declaration_refl|].
  destruct (isalpha (current_char st0)) eqn:Halpha.
  - pose proof (extends_identifier st0) as Hid.
    destruct (identifier st0) as [id st1]. specialize (Hid st1 id eq_refl).
    eapply declares_nothing_after; [apply extends_no_declaration, Hid|].
    eapply declares_nothing_after;
      [apply extends_no_declaration, extends_skip_whitespace|].
    set (st2 := skip_whitespace st1).
    destruct (is_char st2 "=") eqn:Heq.
    { eapply declares_nothing_after;
        [eapply extends_no_declaration, extends_advance_char; eauto with frame|].
      apply declares_nothing_bind; [apply expr_preserved|].
      intros value st3. simpl. repeat split; auto. }
    destruct (is_char st2 "(") eqn:Hcall.
    { apply declares_nothing_bind; [apply call_function_preserved|].
      intros _ st3. apply no_declaration_refl. }
    destruct (is_char st2 "[") eqn:Hopen; [|apply no_declaration_refl].
    eapply declares_nothing_after;
      [eapply extends_no_declaration, extends_advance_char; eauto with frame|].
    apply declares_nothing_bind; [apply expr_preserved|]. intros index st3.
    destruct (is_char st3 "]") eqn:Hclose; [|apply no_declaration_refl]. cbn [negb].
    eapply declares_nothing_after;
      [eapply extends_no_declaration, extends_advance_char; eauto with frame|].
    eapply declares_nothing_after;
      [apply extends_no_declaration, extends_skip_whitespace|].
    set (st4 := skip_whitespace (advance st3)).
    destruct (is_char st4 "=") eqn:Heq'; [|apply no_declaration_refl]. cbn [negb].
    eapply declares_nothing_after;
      [eapply extends_no_declaration, extends_advance_char; eauto with frame|].
    apply declares_nothing_bind; [apply expr_preserved|]. intros value st5.
    destruct (arrays st5 !! id) as [elements|] eqn:Harr; [|apply no_declaration_refl].
    destruct ((index <? 0) || (Z.of_nat (length elements) <=? index));
      [apply no_declaration_refl|].
    unfold declares_nothing, no_declaration, set_arrays.
    cbn [input functions arrays]. repeat split; auto. intros name Hname.
    rewrite lookup_insert_ne; [exact Hname|]. intros ->. congruence.
  - destruct (is_char st0 "f") eqn:Hf.
    { apply is_char_current in Hf. rewrite Hf in Halpha. discriminate Halpha. }
    destruct (is_char st0 "a") eqn:Ha.
    { apply is_char_current in Ha. rewrite Ha in Halpha. discriminate Halpha. }
    apply no_declaration_refl.
Qed.

(** The tables of functions and of arrays gain nothing from a program: from
    the state the constructor makes, they stay empty. *)
Theorem program_never_declares (fuel : nat) (st : interp) :
  match program fuel st with
  | Ok _ st' | Throw _ st' =>
      functions st' = functions st /\
      forall name : string, arrays st !! name = None -> arrays st' !! name = None
  | Undefined _ | OutOfFuel => True
  end.
Proof.
  revert st. induction fuel as [|fuel IH]; intros st; [exact I|].
  cbn [program]. destruct (at_end st); cbn [negb]; [split; auto|].
  pose proof (statement_never_declares fuel st) as Hs.
  destruct (statement fuel st) as [[] st1|e st1|u|]; cbn [bind]; try exact I.
  - destruct Hs as (_ & Hf & Ha).
    pose proof (extends_skip_whitespace st1) as [(_ & _ & Hf2 & Ha2) _].
    set (st2 := skip_whitespace st1) in *.
    destruct (is_char st2 ";").
    + specialize (IH (advance st2)).
      destruct (program fuel (advance st2)) as [[] st3|e st3|u|]; try exact I;
        destruct IH as [Hf3 Ha3]; cbn [functions arrays advance set_current] in Hf3, Ha3;
        (split; [congruence|]); intros name Hname; apply Ha3; rewrite Ha2; auto.
    + destruct (at_end st2); cbn [negb].
      * specialize (IH st2).
        destruct (program fuel st2) as [[] st3|e st3|u|]; try exact I;
          destruct IH as [Hf3 Ha3];
          (split; [congruence|]); intros name Hname; apply Ha3; rewrite Ha2; auto.
      * split; [congruence|]. intros name Hname. rewrite Ha2. auto.
  - destruct Hs as (_ & Hf & Ha). split; auto.
Qed.

(** ** Where the interpreter departs from its specification *)

(** C1. The statement [function f(x){x*x}] does not declare anything: 'f' is
    a letter, so [statement] takes its first branch, reads the identifier
    "function", finds the 'f' of the name where it wants ['='], ['('] or ['['],
    and throws "Invalid statement". The run stops there, at offset 9, with the
    function table as it was. *)
Theorem function_declaration_is_rejected (fuel : nat) (st : interp) :
  interpret (S fuel) "function f(x){x*x}" st
  = Ok (Some SyntaxError)
       (mkInterp "function f(x){x*x}" 9 "f" (variables st) (functions st) (arrays st)).
Proof. reflexivity. Qed.

(** The declaration and the call in one program: the run stops on the
    declaration, and [y] is never assigned. *)
Lemma declare_then_call_stops_at_the_declaration (fuel : nat) :
  interpret (S fuel) "function f(x){x*x}; y = f(5)" init
  = Ok (Some SyntaxError) (mkInterp "function f(x){x*x}; y = f(5)" 9 "f" ∅ ∅ ∅).
Proof. reflexivity. Qed.

(** With the function already in the table, the call [f(5)] does give
    25 and leaves the caller's [x] alone. *)
Lemma squaring_call_returns_25 :
  call_function 6 "f" squaring_call
  = Ok 25 (mkInterp "f(5)" 4 NUL {[ "x"%string := 3 ]} (functions squaring_call) ∅).
Proof. vm_compute. reflexivity. Qed.

(** C4. [term] divides without a test: on a divisor that evaluates to 0 the
    division [result /= factor()] is undefined behaviour, and no exception is
    thrown. *)
Theorem division_by_zero_is_undefined (fuel : nat) (st : interp) :
  eval (4 + fuel) "1/0" st = Undefined DivisionByZero.
Proof. reflexivity. Qed.

(** The same on every division: whatever the dividend and the state, a
    divisor that evaluates to 0 makes the loop of [term] undefined. *)
Lemma term_loop_division_by_zero (fuel : nat) (result : Z) (st st' : interp) :
  is_char st "/" = true ->
  factor fuel (advance st) = Ok 0 st' ->
  term_loop (S fuel) result st = Undefined DivisionByZero.
Proof.
  intros Hslash Hfactor. rewrite term_loop_S, Hslash, Hfactor.
  rewrite (is_char_current _ _ Hslash), orb_true_r. reflexivity.
Qed.

(** C9. White space is skipped before an operand, never before an operator:
    on [2 + 3 * 4] the loops of [term] and [expr] see the space after the 2
    and stop, so the expression evaluates to 2 with the cursor left on that
    space; on [(2 + 3) * 4] the same happens inside the parentheses and
    [factor] throws "Expected ')'". *)
Theorem spaced_expressions_stop_at_the_space (fuel : nat) (st : interp) :
  eval (3 + fuel) "2 + 3 * 4" st
  = Ok 2 (mkInterp "2 + 3 * 4" 1 " " (variables st) (functions st) (arrays st)) /\
  eval (6 + fuel) "(2 + 3) * 4" st
  = Throw SyntaxError
      (mkInterp "(2 + 3) * 4" 2 " " (variables st) (functions st) (arrays st)).
Proof. split; reflexivity. Qed.

(** Without the spaces the precedence and the associativity are those of the
    grammar. *)
Lemma unspaced_expressions_evaluate (fuel : nat) (st : interp) :
  eval (7 + fuel) "2+3*4" st
  = Ok 14 (mkInterp "2+3*4" 5 NUL (variables st) (functions st) (arrays st)) /\
  eval (7 + fuel) "(2+3)*4" st
  = Ok 20 (mkInterp "(2+3)*4" 7 NUL (variables st) (functions st) (arrays st)) /\
  eval (7 + fuel) "8-3-2" st
  = Ok 3 (mkInterp "8-3-2" 5 NUL (variables st) (functions st) (arrays st)).
Proof. repeat split; reflexivity. Qed.

(** An assignment with spaces around the operator assigns the first operand,
    then the run stops on the operator. *)
Lemma spaced_assignment_stops (fuel : nat) :
  interpret (5 + fuel) "x = 2 + 3" init
  = Ok (Some SyntaxError) (mkInterp "x = 2 + 3" 6 "+" {[ "x"%string := 2 ]} ∅ ∅).
Proof. reflexivity. Qed.

End InterpreterProperties.

(** * Further properties of the virtual machine *)

Module VirtualMachineFacts.
Import C VirtualMachine.

(** ** The register file *)

Lemma register_index_cases (c : ascii) :
  register_digit c = true ->
  let i := char_to_int c - char_to_int "0" in
  i = 0 \/ i = 1 \/ i = 2 \/ i = 3 \/ i = 4 \/ i = 5.
Proof.
  destruct c as [[] [] [] [] [] [] [] []]; cbv; intros H;
    solve [discriminate H | tauto].
Qed.

Lemma reg_get_Some_cases (rf : regfile) (i v : Z) :
  reg_get rf i = Some v -> i = 0 \/ i = 1 \/ i = 2 \/ i = 3 \/ i = 4 \/ i = 5.
Proof.
  destruct i as [|p|p]; try discriminate; [tauto|].
  destruct p as [[[?|?|]|[?|?|]|]|[[?|?|]|[?|?|]|]|]; try discriminate; tauto.
Qed.

Lemma reg_set_Some_cases (rf rf' : regfile) (i v : Z) :
  reg_set rf i v = Some rf' -> i = 0 \/ i = 1 \/ i = 2 \/ i = 3 \/ i = 4 \/ i = 5.
Proof.
  destruct i as [|p|p]; try discriminate; [tauto|].
  destruct p as [[[?|?|]|[?|?|]|]|[[?|?|]|[?|?|]|]|]; try discriminate; tauto.
Qed.

Lemma reg_get_after_set (rf rf' : regfile) (i v : Z) :
  reg_set rf i v = Some rf' -> reg_get rf' i = Some v.
Proof.
  intros H. destruct (reg_set_Some_cases _ _ _ _ H) as [->|[->|[->|[->|[->| ->]]]]];
    injection H as <-; reflexivity.
Qed.

Lemma reg_get_other (rf rf' : regfile) (i j v : Z) :
  reg_set rf i v = Some rf' -> j <> i -> reg_get rf' j = reg_get rf j.
Proof.
  intros H Hne.
  destruct (reg_get rf j) as [w|] eqn:Hj.
  - destruct (reg_get_Some_cases _ _ _ Hj) as [->|[->|[->|[->|[->| ->]]]]];
      destruct (reg_set_Some_cases _ _ _ _ H) as [->|[->|[->|[->|[->| ->]]]]];
      try contradiction; injection H as <-; exact Hj.
  - destruct (reg_get rf' j) as [w|] eqn:Hj'; [|reflexivity].
    destruct (reg_get_Some_cases _ _ _ Hj') as [->|[->|[->|[->|[->| ->]]]]];
      discriminate Hj.
Qed.

Lemma reg_set_digit (rf : regfile) (c : ascii) (v : Z) :
  register_digit c = true ->
  exists rf', reg_set rf (char_to_int c - char_to_int "0") v = Some rf'.
Proof.
  intros H. destruct (register_index_cases c H) as [->|[->|[->|[->|[->| ->]]]]];
    eexists; reflexivity.
Qed.

(** ** What [execute] can and cannot reach *)

Lemma substr_prefix_length (n : nat) (s : string) :
  (String.length (substr_prefix n s) <= n)%nat.
Proof.
  revert s. induction n as [|n IH]; intros [|c s]; simpl; try lia.
  specialize (IH s). lia.
Qed.

(** A mnemonic of more than three letters is never the operation. *)
Lemma long_mnemonic_never_matches (instruction mnemonic : string) :
  (3 < String.length mnemonic)%nat ->
  String.eqb (substr_prefix 3 instruction) mnemonic = false.
Proof.
  intros Hlen. apply String.eqb_neq. intros Heq.
  pose proof (substr_prefix_length 3 instruction) as H. rewrite Heq in H. lia.
Qed.

Ltac frame_cases :=
  repeat match goal with
         | |- framed _ (match ?x with _ => _ end) => destruct x eqn:?
         | |- framed _ (if ?x then _ else _) => destruct x eqn:?
         end.

Ltac frame_done :=
  try exact I;
  unfold framed, vm_frame; cbn;
  repeat (split; [reflexivity|]); auto.

Lemma framed_refl (st : vm) : vm_frame st st.
Proof. unfold vm_frame. repeat (split; [reflexivity|]). auto. Qed.

Lemma framed_update_reg (f : Z -> Z -> int_result) (reg1 reg2 : Z) (st : vm) :
  framed st (update_reg f reg1 reg2 st).
Proof. unfold update_reg. frame_cases; frame_done. Qed.

Lemma framed_mov (instruction : string) (st : vm) : framed st (mov instruction st).
Proof. unfold mov. frame_cases; frame_done. Qed.

Lemma framed_arithmetic (instruction op : string) (st : vm) :
  framed st (arithmetic instruction op st).
Proof.
  unfold arithmetic.
  repeat match goal with
         | |- framed _ (update_reg _ _ _ _) => apply framed_update_reg
         | |- framed _ (match ?x with _ => _ end) => destruct x eqn:?
         | |- framed _ (if ?x then _ else _) => destruct x eqn:?
         end; frame_done.
Qed.

Lemma framed_comparison (instruction op : string) (st : vm) :
  framed st (comparison instruction op st).
Proof. unfold comparison. cbv zeta. frame_cases; frame_done. Qed.

Lemma framed_jump (instruction : string) (st : vm) : framed st (jump instruction st).
Proof. unfold jump. frame_cases; frame_done. Qed.

Lemma framed_jumpIfEqual (instruction : string) (st : vm) :
  framed st (jumpIfEqual instruction st).
Proof.
  unfold jumpIfEqual.
  repeat match goal with
         | |- framed _ (jump _ _) => apply framed_jump
         | |- framed _ (match ?x with _ => _ end) => destruct x eqn:?
         | |- framed _ (if ?x then _ else _) => destruct x eqn:?
         end; frame_done.
Qed.

Lemma framed_ret (st : vm) : framed st (ret st).
Proof.
  unfold ret. destruct (callStack st) as [|top rest] eqn:Hstack; [frame_done|].
  unfold framed, vm_frame. cbn. repeat (split; [reflexivity|]).
  right. exists top. exact Hstack.
Qed.

Lemma framed_execute (instruction : string) (st : vm) :
  framed st (execute instruction st).
Proof.
  unfold execute. cbv zeta.
  rewrite !(long_mnemonic_never_matches instruction "PRINT"),
          !(long_mnemonic_never_matches instruction "CALL"),
          !(long_mnemonic_never_matches instruction "ALLOC"),
          !(long_mnemonic_never_matches instruction "STORE"),
          !(long_mnemonic_never_matches instruction "LOAD") by (cbn; lia).
  repeat match goal with
         | |- framed _ (mov _ _) => apply framed_mov
         | |- framed _ (arithmetic _ _ _) => apply framed_arithmetic
         | |- framed _ (comparison _ _ _) => apply framed_comparison
         | |- framed _ (jump _ _) => apply framed_jump
         | |- framed _ (jumpIfEqual _ _) => apply framed_jumpIfEqual
         | |- framed _ (ret _) => apply framed_ret
         | |- framed _ (if ?x then _ else _) => destruct x eqn:?
         end.
  apply framed_refl.
Qed.

(** X1. Whatever the instruction, when [execute] returns or throws (undefined
    behaviour apart) it has not written the heap, moved the stack pointer,
    printed or pushed a return address: the
    handlers that would ([store], [alloc], [print], [call], and [loadFromHeap]
    besides) sit behind mnemonics of four and five letters that the
    three-character operation cannot equal. The program, the labels, the
    error stream and the running flag are left to [run]. *)
Theorem execute_never_reaches_heap_stack_or_output (instruction : string) (st : vm) :
  framed st (execute instruction st).
Proof. apply framed_execute. Qed.

(** ** How a run ends *)

Lemma run_loop_ends (fuel : nat) (st st' : vm) :
  run_loop fuel st = Finished st' ->
  (memory st' = memory st /\ stackPointer st' = stackPointer st /\
   cout st' = cout st /\ program st' = program st /\ labels st' = labels st /\
   (length (callStack st') <= length (callStack st))%nat) /\
  (running st = false -> st' = st) /\
  (running st = true ->
   (cerr st' = cerr st /\ running st' = true /\
    ~ (0 <= pc st' < Z.of_nat (length (program st')))) \/
   (exists e, cerr st' = cerr st ++ [e] /\ running st' = false)).
Proof.
  revert st. induction fuel as [|fuel IH]; intros st; [discriminate|].
  cbn [run_loop].
  destruct (running st && (0 <=? pc st) && (pc st <? Z.of_nat (length (program st))))
    eqn:Hcond.
  - apply andb_true_iff in Hcond as [Hcond _].
    apply andb_true_iff in Hcond as [Hrun _].
    destruct (program st !! Z.to_nat (pc st)) as [instruction|]; [|discriminate].
    pose proof (framed_execute instruction (set_pc st (pc st + 1))) as Hframe.
    destruct (execute instruction (set_pc st (pc st + 1))) as [st1|e st1|u];
      [| |discriminate];
      destruct Hframe as (Hm & Hsp & Hco & Hce & Hr & Hp & Hl & Hcs);
      cbn in Hm, Hsp, Hco, Hce, Hr, Hp, Hl, Hcs;
      intros Hloop; apply IH in Hloop as ((Hm' & Hsp' & Hco' & Hp' & Hl' & Hcs') & Hoff & Hon);
      cbn in Hm', Hsp', Hco', Hp', Hl', Hcs', Hoff, Hon.
    + split; [|split; [congruence|intros _]].
      * repeat split; try congruence.
        destruct Hcs as [Heq|[top Heq]]; rewrite Heq in *; cbn; lia.
      * destruct (Hon ltac:(congruence)) as [(Hc1 & Hc2 & Hc3)|[e (Hc1 & Hc2)]].
        -- left. repeat split; congruence.
        -- right. exists e. split; congruence.
    + split; [|split; [congruence|intros _]].
      * repeat split; try congruence.
        destruct Hcs as [Heq|[top Heq]]; rewrite Heq in *; cbn; lia.
      * right. exists e. rewrite (Hoff eq_refl). cbn. split; congruence.
  - intros [= <-]. split; [repeat split; auto|]. split; [reflexivity|].
    intros Hrun. left. split; [reflexivity|]. split; [exact Hrun|].
    rewrite Hrun in Hcond. cbn in Hcond. intros [Hlo Hhi].
    apply andb_false_iff in Hcond as [Hcond|Hcond];
      [apply Z.leb_gt in Hcond | apply Z.ltb_ge in Hcond]; lia.
Qed.

(** X2. A run that returns has either run off the program with nothing
    written to the error stream, or stopped on one exception, written once,
    with the running flag cleared. Either way the heap, the stack pointer and
    the output are those from before the run, and the call stack has not
    grown. *)
Theorem run_ends_clean_or_on_one_error (fuel : nat) (st st' : vm) :
  run fuel st = Finished st' ->
  memory st' = memory st /\ stackPointer st' = stackPointer st /\
  cout st' = cout st /\ program st' = program st /\ labels st' = labels st /\
  (length (callStack st') <= length (callStack st))%nat /\
  ((cerr st' = cerr st /\ running st' = true /\
    ~ (0 <= pc st' < Z.of_nat (length (program st')))) \/
   (exists e, cerr st' = cerr st ++ [e] /\ running st' = false)).
Proof.
  unfold run. intros H. apply run_loop_ends in H as ((Hm & Hsp & Hco & Hp & Hl & Hcs) & _ & Hon).
  cbn in Hm, Hsp, Hco, Hp, Hl, Hcs, Hon. repeat (split; [assumption|]).
  exact (Hon eq_refl).
Qed.

Lemma run_ends_clean_or_on_one_error_witness :
  let st := load ["MOV 1 0"; "DIV 0 1"; "MOV 0 7"]%string init in
  match run 10 st with
  | Finished st' =>
      memory st' = memory st /\ stackPointer st' = stackPointer st /\
      cout st' = cout st /\ program st' = program st /\ labels st' = labels st /\
      (length (callStack st') <= length (callStack st))%nat /\
      ((cerr st' = cerr st /\ running st' = true /\
        ~ (0 <= pc st' < Z.of_nat (length (program st')))) \/
       (exists e, cerr st' = cerr st ++ [e] /\ running st' = false))
  | _ => False
  end.
Proof.
  cbv zeta.
  destruct (run 10 (load ["MOV 1 0"; "DIV 0 1"; "MOV 0 7"]%string init))
    as [st'|u|] eqn:E.
  - exact (run_ends_clean_or_on_one_error 10 _ st' E).
  - vm_compute in E. discriminate E.
  - vm_compute in E. discriminate E.
Defined.

(** X3. With an empty call stack, an instruction that starts with RET stops
    the run: StackUnderflow is written to the error stream, the running flag
    is cleared, and the instructions after it are not executed. *)
Theorem ret_without_call_stops_the_run (fuel : nat) (st : vm) (rest : string) :
  running st = true ->
  0 <= pc st < Z.of_nat (length (program st)) ->
  program st !! Z.to_nat (pc st) = Some (String.append "RET" rest) ->
  callStack st = [] ->
  run_loop (S (S fuel)) st
  = Finished (set_running (add_cerr (set_pc st (pc st + 1)) StackUnderflow) false).
Proof.
  intros Hrun Hpc Hfetch Hstack.
  cbn [run_loop]. rewrite Hrun, Hfetch.
  replace (0 <=? pc st) with true by (symmetry; apply Z.leb_le; lia).
  replace (pc st <? Z.of_nat (length (program st))) with true
    by (symmetry; apply Z.ltb_lt; lia).
  cbn [andb].
  change (execute (String.append "RET" rest) (set_pc st (pc st + 1)))
    with (ret (set_pc st (pc st + 1))).
  unfold ret. change (callStack (set_pc st (pc st + 1))) with (callStack st).
  rewrite Hstack. reflexivity.
Qed.

Lemma ret_without_call_stops_the_run_witness :
  let st := set_running (load ["RET"; "MOV 0 7"]%string init) true in
  run_loop 2 st
  = Finished (set_running (add_cerr (set_pc st 1) StackUnderflow) false).
Proof.
  cbv zeta.
  apply (ret_without_call_stops_the_run 0
           (set_running (load ["RET"; "MOV 0 7"]%string init) true) "");
    [reflexivity | cbn; lia | reflexivity | reflexivity].
Defined.

(** ** Arithmetic *)

Lemma update_reg_never_throws (f : Z -> Z -> int_result) (reg1 reg2 : Z) (st st' : vm)
    (e : error) :
  update_reg f reg1 reg2 st <> Throw e st'.
Proof.
  unfold update_reg.
  repeat match goal with
         | |- context [match ?x with _ => _ end] => destruct x
         end; discriminate.
Qed.

(** X4. [arithmetic] throws in one case only: the operation is DIV or MOD and
    the source register, a register of the file, holds 0. The exception is
    then ArithmeticError and the machine is left as it was; the destination
    is not looked at, so it may even be outside the register file. *)
Theorem arithmetic_throws_exactly_on_zero_divisor (instruction op : string)
    (st st' : vm) (e : error) :
  arithmetic instruction op st = Throw e st' <->
  e = ArithmeticError /\ st' = st /\
  (op = "DIV"%string \/ op = "MOD"%string) /\
  (exists reg1, decode_reg instruction 4 = Some reg1) /\
  (exists reg2, decode_reg instruction 6 = Some reg2 /\
                reg_get (registers st) reg2 = Some 0).
Proof.
  unfold arithmetic. split.
  - destruct (decode_reg instruction 4) as [reg1|]; [|destruct (decode_reg instruction 6); discriminate].
    destruct (decode_reg instruction 6) as [reg2|]; [|discriminate].
    destruct (String.eqb op "ADD"); [intros H; elim (update_reg_never_throws _ _ _ _ _ _ H)|].
    destruct (String.eqb op "SUB"); [intros H; elim (update_reg_never_throws _ _ _ _ _ _ H)|].
    destruct (String.eqb op "MUL"); [intros H; elim (update_reg_never_throws _ _ _ _ _ _ H)|].
    destruct (String.eqb_spec op "DIV") as [->|_].
    { destruct (reg_get (registers st) reg2) as [b|] eqn:Hb; [|discriminate].
      destruct (Z.eqb_spec b 0) as [->|_];
        [|intros H; elim (update_reg_never_throws _ _ _ _ _ _ H)].
      intros [= <- <-]. repeat split; eauto. }
    destruct (String.eqb_spec op "MOD") as [->|_].
    { destruct (reg_get (registers st) reg2) as [b|] eqn:Hb; [|discriminate].
      destruct (Z.eqb_spec b 0) as [->|_];
        [|intros H; elim (update_reg_never_throws _ _ _ _ _ _ H)].
      intros [= <- <-]. repeat split; eauto. }
    destruct (String.eqb op "EXP"); [intros H; elim (update_reg_never_throws _ _ _ _ _ _ H)|].
    discriminate.
  - intros (-> & -> & Hop & [reg1 H1] & [reg2 [H2 H0]]).
    rewrite H1, H2. destruct Hop as [-> | ->]; cbn; rewrite H0; reflexivity.
Qed.

(** ** The heap *)

(** X5. [loadFromHeap], once its operands are decoded: an address outside
    [0, 100) throws OutOfRange and changes nothing, before the register is
    looked at; an address inside that was never stored to is a read of
    uninitialised memory, the heap being allocated without initialisation; an
    address inside that was stored to puts the stored value in the register
    and leaves the heap alone. *)
Theorem load_checks_the_address (instruction : string) (st : vm) (reg addr : Z) :
  decode_reg instruction 6 = Some reg ->
  decode_int instruction 8 = inr addr ->
  (addr < 0 \/ 100 <= addr -> loadFromHeap instruction st = Throw OutOfRange st) /\
  (0 <= addr < 100 -> memory st !! addr = None ->
   loadFromHeap instruction st = Undefined UninitialisedRead) /\
  (0 <= addr < 100 -> 0 <= reg <= 5 ->
   forall v, memory st !! addr = Some v ->
   exists st', loadFromHeap instruction st = Normal st' /\
               reg_get (registers st') reg = Some v /\
               (forall j, j <> reg -> reg_get (registers st') j = reg_get (registers st) j) /\
               memory st' = memory st).
Proof.
  intros Hreg Haddr. unfold loadFromHeap. rewrite Hreg, Haddr.
  split; [|split].
  - intros Hout.
    replace ((addr <? 0) || (100 <=? addr)) with true
      by (symmetry; apply orb_true_iff; lia).
    reflexivity.
  - intros Hin Hnone.
    replace ((addr <? 0) || (100 <=? addr)) with false
      by (symmetry; apply orb_false_iff; lia).
    rewrite Hnone. reflexivity.
  - intros Hin Hr v Hv.
    replace ((addr <? 0) || (100 <=? addr)) with false
      by (symmetry; apply orb_false_iff; lia).
    rewrite Hv.
    destruct (reg_set (registers st) reg v) as [rf|] eqn:Hset.
    + eexists. split; [reflexivity|]. cbn. split; [|split].
      * eapply reg_get_after_set, Hset.
      * intros j Hj. eapply reg_get_other; eauto.
      * reflexivity.
    + exfalso.
      assert (reg = 0 \/ reg = 1 \/ reg = 2 \/ reg = 3 \/ reg = 4 \/ reg = 5) as Hc by lia.
      destruct Hc as [->|[->|[->|[->|[->| ->]]]]]; discriminate Hset.
Qed.

Lemma load_checks_the_address_witness :
  loadFromHeap "LOAD R0 150" init = Throw OutOfRange init.
Proof.
  apply (proj1 (load_checks_the_address "LOAD R0 150" init 0 150 eq_refl eq_refl)).
  right. lia.
Defined.

(** X6. [store] has no check of its own: the only exceptions it throws are
    those of [substr] and [std::stoi] on a malformed address, with the machine
    unchanged; with a register of the file, an address outside [0, 100) is
    written all the same, outside the heap. *)
Theorem store_checks_nothing (instruction : string) (st : vm) :
  (forall e st', store instruction st = Throw e st' ->
                 (e = LibOutOfRange \/ e = LibInvalidArgument) /\ st' = st) /\
  (forall reg addr v,
      decode_reg instruction 6 = Some reg -> decode_int instruction 8 = inr addr ->
      reg_get (registers st) reg = Some v ->
      (addr < 0 \/ 100 <= addr) ->
      store instruction st = Undefined HeapOutOfBounds).
Proof.
  unfold store. split.
  - intros e st'. destruct (decode_reg instruction 6) as [reg|]; [|discriminate].
    unfold decode_int.
    destruct (substr_from 8 instruction) as [text|]; [|intros [= <- <-]; auto].
    destruct (stoi text) as [addr| |]; try (intros [= <- <-]; auto).
    destruct (reg_get (registers st) reg); [|discriminate].
    destruct ((0 <=? addr) && (addr <? 100)); discriminate.
  - intros reg addr v -> -> -> Hout.
    replace ((0 <=? addr) && (addr <? 100)) with false
      by (symmetry; apply andb_false_iff; lia).
    reflexivity.
Qed.

(** X24. A store and a load, called on their own with the same address
    inside the heap: the value the source register held at the store is in
    the destination register after the load. *)
Theorem store_load_round_trip (i1 i2 : string) (st : vm) (rs rd addr v : Z) :
  decode_reg i1 6 = Some rs -> decode_int i1 8 = inr addr ->
  decode_reg i2 6 = Some rd -> decode_int i2 8 = inr addr ->
  reg_get (registers st) rs = Some v ->
  0 <= rd <= 5 -> 0 <= addr < 100 ->
  exists st1 st2,
    store i1 st = Normal st1 /\ loadFromHeap i2 st1 = Normal st2 /\
    reg_get (registers st2) rd = Some v /\
    memory st2 !! addr = Some v.
Proof.
  intros Hs1 Ha1 Hs2 Ha2 Hv Hrd Haddr.
  unfold store, loadFromHeap. rewrite Hs1, Ha1, Hv, Hs2, Ha2.
  replace ((0 <=? addr) && (addr <? 100)) with true by (symmetry; apply andb_true_iff; lia).
  replace ((addr <? 0) || (100 <=? addr)) with false by (symmetry; apply orb_false_iff; lia).
  assert (exists rf, reg_set (registers st) rd v = Some rf) as [rf Hset].
  { assert (rd = 0 \/ rd = 1 \/ rd = 2 \/ rd = 3 \/ rd = 4 \/ rd = 5) as Hc by lia.
    destruct Hc as [->|[->|[->|[->|[->| ->]]]]]; eexists; reflexivity. }
  eexists _, _. split; [reflexivity|].
  cbn [memory set_memory registers]. rewrite lookup_insert_eq.
  change (registers (set_memory st (<[addr:=v]> (memory st)))) with (registers st).
  rewrite Hset. split; [reflexivity|]. cbn [registers memory set_registers set_memory].
  split; [eapply reg_get_after_set, Hset|apply lookup_insert_eq].
Qed.

Lemma store_load_round_trip_witness :
  let st := set_registers init (mkRegs 42 0 0 0 0 0) in
  exists st1 st2,
    store "STORE 0 5" st = Normal st1 /\ loadFromHeap "LOAD R1 5" st1 = Normal st2 /\
    reg_get (registers st2) 1 = Some 42 /\
    memory st2 !! 5 = Some 42.
Proof.
  cbv zeta.
  apply (store_load_round_trip "STORE 0 5" "LOAD R1 5"
           (set_registers init (mkRegs 42 0 0 0 0 0)) 0 1 5 42);
    [reflexivity | reflexivity | reflexivity | reflexivity | reflexivity | lia | lia].
Defined.

(** X25. The instruction on which [execute] throws is the last one of the
    run: the exception is written to the error stream, the running flag is
    cleared, and the loop returns with the machine as the throw left it, the
    program counter past the faulting instruction. *)
Theorem first_exception_ends_the_run (fuel : nat) (st st' : vm) (instruction : string)
    (e : error) :
  running st = true ->
  0 <= pc st < Z.of_nat (length (program st)) ->
  program st !! Z.to_nat (pc st) = Some instruction ->
  execute instruction (set_pc st (pc st + 1)) = Throw e st' ->
  run_loop (S (S fuel)) st = Finished (set_running (add_cerr st' e) false).
Proof.
  intros Hrun Hpc Hfetch Hexec.
  cbn [run_loop]. rewrite Hrun, Hfetch, Hexec.
  replace (0 <=? pc st) with true by (symmetry; apply Z.leb_le; lia).
  replace (pc st <? Z.of_nat (length (program st))) with true
    by (symmetry; apply Z.ltb_lt; lia).
  reflexivity.
Qed.

Lemma first_exception_ends_the_run_witness :
  let st := set_running (load ["DIV 0 1"; "MOV 0 7"]%string init) true in
  run_loop 2 st
  = Finished (set_running (add_cerr (set_pc st 1) ArithmeticError) false).
Proof.
  cbv zeta.
  apply (first_exception_ends_the_run 0
           (set_running (load ["DIV 0 1"; "MOV 0 7"]%string init) true)
           (set_pc (set_running (load ["DIV 0 1"; "MOV 0 7"]%string init) true) 1)
           "DIV 0 1" ArithmeticError);
    [reflexivity | cbn; lia | reflexivity | reflexivity].
Defined.

(** X26. [call], called on its own, pushes the return address before it
    looks the label up: with an undefined label it throws LinkError and the
    address stays pushed; with a defined label it jumps, and a [ret] after it
    gives back the very machine the call started from, program counter and
    call stack included. *)
Theorem call_pushes_before_it_checks (label : string) (st : vm) :
  let pushed := set_callStack st (pc st :: callStack st) in
  call (String.append "CALL " label) st =
  match labels st !! label with
  | Some target => Normal (set_pc pushed target)
  | None => Throw LinkError pushed
  end /\
  forall target, ret (set_pc pushed target) = Normal st.
Proof.
  intros pushed. split.
  - unfold call.
    change (substr_from 5 (String.append "CALL " label)) with (Some label).
    cbv beta iota zeta.
    change (labels (set_callStack st (pc st :: callStack st))) with (labels st).
    destruct (labels st !! label); reflexivity.
  - intros target. destruct st. reflexivity.
Qed.

(** ** Registers *)

Lemma stoi_in_range (text : string) (v : Z) :
  stoi text = StoiValue v -> in_int_range v = true.
Proof.
  unfold stoi.
  destruct (match skip_spaces text with
            | String "-"%char r => (true, r)
            | String "+"%char r => (false, r)
            | _ => (false, skip_spaces text)
            end) as [negative digits].
  destruct (starts_with_digit digits); [|discriminate].
  destruct (in_int_range (if negative then - digits_value 0 digits
                          else digits_value 0 digits)) eqn:Hrange; [|discriminate].
  intros [= <-]. exact Hrange.
Qed.

Lemma decode_int_in_range (instruction : string) (off : nat) (v : Z) :
  decode_int instruction off = inr v -> in_int_range v = true.
Proof.
  unfold decode_int. destruct (substr_from off instruction) as [text|]; [|discriminate].
  destruct (stoi text) as [w| |] eqn:Hstoi; try discriminate.
  intros [= <-]. eapply stoi_in_range, Hstoi.
Qed.

(** X7. [mov] on an instruction with a register digit at offset 4 and an
    immediate that parses from offset 6: the register holds the immediate,
    which is an int, the other registers are as they were, and so is the rest
    of the machine. *)
Theorem mov_sets_one_register (instruction : string) (st : vm) (c : ascii) (v : Z) :
  string_at instruction 4 = Some c ->
  register_digit c = true ->
  decode_int instruction 6 = inr v ->
  let reg := char_to_int c - char_to_int "0" in
  exists st',
    mov instruction st = Normal st' /\
    reg_get (registers st') reg = Some v /\ in_int_range v = true /\
    (forall j, j <> reg -> reg_get (registers st') j = reg_get (registers st) j) /\
    memory st' = memory st /\ pc st' = pc st /\ callStack st' = callStack st.
Proof.
  intros Hc Hdigit Hv reg. unfold mov.
  rewrite (VirtualMachineProperties.decode_reg_at _ _ _ Hc), Hv. fold reg.
  destruct (reg_set_digit (registers st) c v Hdigit) as [rf Hset]. fold reg in Hset.
  rewrite Hset. eexists. split; [reflexivity|]. cbn.
  split; [eapply reg_get_after_set, Hset|].
  split; [eapply decode_int_in_range, Hv|].
  split; [|auto]. intros j Hj. eapply reg_get_other; eauto.
Qed.

Lemma mov_sets_one_register_witness :
  exists st',
    mov "MOV 3 -17" init = Normal st' /\
    reg_get (registers st') 3 = Some (-17) /\ in_int_range (-17) = true /\
    (forall j, j <> 3 -> reg_get (registers st') j = reg_get (registers init) j) /\
    memory st' = memory init /\ pc st' = pc init /\ callStack st' = callStack init.
Proof.
  exact (mov_sets_one_register "MOV 3 -17" init "3" (-17) eq_refl eq_refl eq_refl).
Defined.

(** X8. A comparison between two registers of the file never fails: it
    writes 1 in the first register when the relation holds and 0 when it does
    not, and leaves the other registers alone. *)
Theorem comparison_writes_one_or_zero (instruction : string) (st : vm)
    (reg1 reg2 a b : Z) :
  decode_reg instruction 4 = Some reg1 ->
  decode_reg instruction 6 = Some reg2 ->
  reg_get (registers st) reg1 = Some a ->
  reg_get (registers st) reg2 = Some b ->
  forall (op : string) (test : Z -> Z -> bool),
    In (op, test) [("GT"%string, Z.gtb); ("LT"%string, Z.ltb); ("EQ"%string, Z.eqb)] ->
    exists st',
      comparison instruction op st = Normal st' /\
      reg_get (registers st') reg1 = Some (if test a b then 1 else 0) /\
      (forall j, j <> reg1 -> reg_get (registers st') j = reg_get (registers st) j).
Proof.
  intros H1 H2 Ha Hb op test Hop. unfold comparison. rewrite H1, H2. cbv zeta.
  rewrite Ha, Hb.
  assert (exists rf, reg_set (registers st) reg1 (if test a b then 1 else 0) = Some rf)
    as [rf Hset].
  { destruct (reg_get_Some_cases _ _ _ Ha) as [->|[->|[->|[->|[->| ->]]]]];
      eexists; reflexivity. }
  assert ((if String.eqb op "GT" then Some (a >? b)
           else if String.eqb op "LT" then Some (a <? b)
           else if String.eqb op "EQ" then Some (a =? b)
           else Some false) = Some (test a b)) as ->.
  { destruct Hop as [[= <- <-]|[[= <- <-]|[[= <- <-]|[]]]]; reflexivity. }
  rewrite Hset. eexists. split; [reflexivity|]. cbn.
  split; [eapply reg_get_after_set, Hset|].
  intros j Hj. eapply reg_get_other; eauto.
Qed.

Lemma comparison_writes_one_or_zero_witness :
  let st := set_registers init (mkRegs 0 0 7 0 3 0) in
  exists st',
    comparison "GT  2 4" "GT" st = Normal st' /\
    reg_get (registers st') 2 = Some 1 /\
    (forall j, j <> 2 -> reg_get (registers st') j = reg_get (registers st) j).
Proof.
  cbv zeta.
  apply (comparison_writes_one_or_zero "GT  2 4"
           (set_registers init (mkRegs 0 0 7 0 3 0)) 2 4 7 3
           eq_refl eq_refl eq_refl eq_refl "GT" Z.gtb).
  left. reflexivity.
Defined.

(** ** Jumps and labels *)

Lemma run_loop_S (fuel : nat) (st : vm) :
  run_loop (S fuel) st =
  if running st && (0 <=? pc st) && (pc st <? Z.of_nat (length (program st)))
  then
    match program st !! Z.to_nat (pc st) with
    | None => RunUndefined ContainerIndexOutOfBounds
    | Some instruction =>
        match execute instruction (set_pc st (pc st + 1)) with
        | Normal st' => run_loop fuel st'
        | Throw e st' => run_loop fuel (set_running (add_cerr st' e) false)
        | Undefined u => RunUndefined u
        end
    end
  else Finished st.
Proof. reflexivity. Qed.

(** X9. An instruction [JMP label] is dispatched to [jump], which sets the
    program counter to the address of the label when the label is defined and
    throws LinkError, the machine unchanged, when it is not. *)
Theorem jump_follows_the_label_table (label : string) (st : vm) :
  execute (String.append "JMP " label) st =
  match labels st !! label with
  | Some target => Normal (set_pc st target)
  | None => Throw LinkError st
  end.
Proof. reflexivity. Qed.

(** X10. [defineLabel] records the length of the program loaded at that
    time, so a label defined after [load] is the address past the last
    instruction: a program that starts with a jump to it ends its run at once,
    with no error and none of its other instructions executed, whatever they
    are. *)
Theorem jump_to_label_defined_after_load_ends_the_run (fuel : nat) (label : string)
    (rest : list string) (st : vm) :
  let bytecode := String.append "JMP " label :: rest in
  let loaded := defineLabel label (load bytecode st) in
  labels loaded !! label = Some (Z.of_nat (length bytecode)) /\
  run (S (S fuel)) loaded
  = Finished (set_running (set_pc loaded (Z.of_nat (length bytecode))) true).
Proof.
  intros bytecode loaded.
  assert (labels loaded !! label = Some (Z.of_nat (length bytecode))) as Hlabel.
  { unfold loaded, defineLabel, load. cbn [labels set_labels program set_program].
    apply lookup_insert_eq. }
  split; [exact Hlabel|].
  unfold run. set (st0 := set_running (set_pc loaded 0) true).
  set (st1 := set_pc (set_pc st0 (pc st0 + 1)) (Z.of_nat (length bytecode))).
  assert (execute (String.append "JMP " label) (set_pc st0 (pc st0 + 1)) = Normal st1)
    as Hjump.
  { change (execute (String.append "JMP " label) (set_pc st0 (pc st0 + 1)))
      with (match labels loaded !! label with
            | Some target => Normal (set_pc (set_pc st0 (pc st0 + 1)) target)
            | None => Throw LinkError (set_pc st0 (pc st0 + 1))
            end).
    rewrite Hlabel. reflexivity. }
  rewrite (run_loop_S (S fuel) st0).
  change (running st0 && (0 <=? pc st0) && (pc st0 <? Z.of_nat (length (program st0))))
    with true.
  change (program st0 !! Z.to_nat (pc st0)) with (Some (String.append "JMP " label)).
  cbv beta iota. rewrite Hjump, (run_loop_S fuel st1).
  change (running st1) with true.
  change (pc st1) with (Z.of_nat (length bytecode)).
  change (program st1) with bytecode.
  rewrite Z.ltb_irrefl, andb_false_r. reflexivity.
Qed.

(** ** Allocation and conditional jumps *)

(** X12. [alloc], once its size has parsed: the stack pointer goes down by
    the size and never below 0; a size that would take it below 0 throws
    OutOfMemory and leaves it where it was. The size is not checked against
    0, so a negative size moves the pointer up. *)
Theorem alloc_never_goes_below_zero (instruction : string) (st : vm) (size : Z) :
  decode_int instruction 6 = inr size ->
  in_int_range (stackPointer st - size) = true ->
  (stackPointer st - size < 0 -> alloc instruction st = Throw OutOfMemory st) /\
  (0 <= stackPointer st - size ->
   exists st', alloc instruction st = Normal st' /\
               stackPointer st' = stackPointer st - size /\ 0 <= stackPointer st' /\
               registers st' = registers st /\ memory st' = memory st).
Proof.
  intros Hsize Hrange. unfold alloc, of_checked. rewrite Hsize, Hrange. split.
  - intros Hneg. replace (stackPointer st - size <? 0) with true
      by (symmetry; apply Z.ltb_lt; lia). reflexivity.
  - intros Hpos. replace (stackPointer st - size <? 0) with false
      by (symmetry; apply Z.ltb_ge; lia).
    eexists. split; [reflexivity|]. cbn. auto.
Qed.

Lemma alloc_never_goes_below_zero_witness :
  alloc "ALLOC 100" init = Throw OutOfMemory init /\
  exists st', alloc "ALLOC -5" init = Normal st' /\
              stackPointer st' = 99 - -5 /\ 0 <= stackPointer st' /\
              registers st' = registers init /\ memory st' = memory init.
Proof.
  split.
  - apply (proj1 (alloc_never_goes_below_zero "ALLOC 100" init 100 eq_refl eq_refl)).
    cbn. lia.
  - apply (proj2 (alloc_never_goes_below_zero "ALLOC -5" init (-5) eq_refl eq_refl)).
    cbn. lia.
Defined.

(** X13. [jumpIfEqual] looks the label up only when the two registers are
    equal: with different registers the instruction does nothing, even when
    the label is undefined; with equal registers it is the jump, LinkError
    included. *)
Theorem conditional_jump_needs_the_label_only_when_equal (instruction label : string)
    (st : vm) (reg1 reg2 a b : Z) :
  decode_reg instruction 4 = Some reg1 ->
  decode_reg instruction 6 = Some reg2 ->
  substr_from 8 instruction = Some label ->
  reg_get (registers st) reg1 = Some a ->
  reg_get (registers st) reg2 = Some b ->
  jumpIfEqual instruction st =
  if a =? b then
    match labels st !! label with
    | Some target => Normal (set_pc st target)
    | None => Throw LinkError st
    end
  else Normal st.
Proof.
  intros H1 H2 Hlabel Ha Hb. unfold jumpIfEqual.
  rewrite H1, H2, Hlabel, Ha, Hb. destruct (a =? b); reflexivity.
Qed.

Lemma conditional_jump_needs_the_label_only_when_equal_witness :
  let st := set_registers init (mkRegs 1 2 0 0 0 0) in
  jumpIfEqual "JEQ 0 1 nowhere" st = Normal st.
Proof.
  cbv zeta.
  exact (conditional_jump_needs_the_label_only_when_equal "JEQ 0 1 nowhere" "nowhere"
           (set_registers init (mkRegs 1 2 0 0 0 0)) 0 1 1 2
           eq_refl eq_refl eq_refl eq_refl eq_refl).
Defined.

End VirtualMachineFacts.

(** * Further properties of the interpreter *)

Module InterpreterFacts.
Import C Interpreter InterpreterProperties.

(** ** Scanning *)

Lemma append_char_assoc (acc : string) (c : ascii) (s : string) :
  String.append (String.append acc (String c EmptyString)) s
  = String.append acc (String c s).
Proof.
  induction acc as [|d acc IH]; [reflexivity|].
  change (String d (String.append (String.append acc (String c EmptyString)) s)
          = String d (String.append acc (String c s))).
  f_equal. exact IH.
Qed.

Lemma append_empty (acc : string) : String.append acc EmptyString = acc.
Proof.
  induction acc as [|d acc IH]; [reflexivity|].
  change (String d (String.append acc EmptyString) = String d acc).
  f_equal. exact IH.
Qed.

Lemma substring_zero (p : nat) (s : string) : substring p 0 s = EmptyString.
Proof.
  revert p. induction s as [|c s IH]; intros [|p]; simpl; try reflexivity. apply IH.
Qed.

Lemma substring_step (s : string) (p k : nat) (c : ascii) :
  String.get p s = Some c ->
  substring p (S k) s = String c (substring (S p) k s).
Proof.
  revert p. induction s as [|d s IH]; intros p; [destruct p; discriminate|].
  destruct p as [|p]; simpl.
  - intros [= <-]. destruct s; reflexivity.
  - intros H. rewrite (IH p H). reflexivity.
Qed.

Lemma cursor_get (st : interp) :
  cursor_ok st -> at_end st = false ->
  String.get (pos st) (input st) = Some (current_char st).
Proof.
  unfold cursor_ok, string_at, at_end, is_char. intros Hok Hend.
  destruct (String.get (pos st) (input st)) as [c|]; [exact Hok|].
  destruct (pos st =? String.length (input st))%nat; [|discriminate].
  injection Hok as Hok. rewrite <- Hok in Hend. discriminate Hend.
Qed.

(** What a scanning loop returns: the accumulator followed by the characters
    it walked over, all of which pass the test; and, on a sound cursor, those
    characters are the text from the old position to the new one. *)
Lemma scan_loop_spec (test : ascii -> bool) (n : nat) (acc : string) (st : interp) :
  exists suffix : string,
    fst (scan_loop test n acc st) = String.append acc suffix /\
    all_chars test suffix = true /\
    (n <> 0%nat -> negb (at_end st) && test (current_char st) = true ->
     suffix <> EmptyString) /\
    (cursor_ok st ->
     pos (snd (scan_loop test n acc st)) = (pos st + String.length suffix)%nat /\
     substring (pos st) (String.length suffix) (input st) = suffix).
Proof.
  revert acc st. induction n as [|n IH]; intros acc st.
  - exists EmptyString. simpl. rewrite append_empty, substring_zero.
    repeat split; auto; congruence.
  - simpl. destruct (negb (at_end st) && test (current_char st)) eqn:Hcond.
    + destruct (IH (String.append acc (String (current_char st) EmptyString))
                   (advance st)) as (suffix & Hres & Hall & _ & Hpos).
      exists (String (current_char st) suffix).
      apply andb_true_iff in Hcond as [Hend Htest].
      apply negb_true_iff in Hend.
      rewrite Hres, append_char_assoc. simpl. rewrite Htest, Hall.
      repeat split; try discriminate.
      * destruct (Hpos (proj2 (extends_advance st Hend) H)) as [Hp _].
        rewrite Hp. unfold advance. simpl. lia.
      * destruct (Hpos (proj2 (extends_advance st Hend) H)) as [_ Hs].
        rewrite (substring_step _ _ _ _ (cursor_get st H Hend)).
        unfold advance in Hs. simpl in Hs. rewrite Hs. reflexivity.
    + exists EmptyString. simpl. rewrite append_empty, substring_zero.
      repeat split; auto; try lia.
Qed.

Lemma isspace_NUL_free (c : ascii) : isspace c = true -> Ascii.eqb c NUL = false.
Proof.
  destruct c as [[] [] [] [] [] [] [] []]; cbv; intros H;
    solve [discriminate H | reflexivity].
Qed.

Lemma skip_whitespace_loop_pos (n : nat) (st : interp) :
  (pos st <= pos (skip_whitespace_loop n st))%nat.
Proof.
  revert st. induction n as [|n IH]; intros st; simpl; [lia|].
  destruct (negb (at_end st) && isspace (current_char st)); [|lia].
  specialize (IH (advance st)). unfold advance in IH at 1. simpl in IH. lia.
Qed.

(** X14. [skip_whitespace] stops on a character that is not white space,
    never moves back, leaves the text and the three tables alone, keeps the
    cursor sound, and has nothing left to do when called again. *)
Theorem skip_whitespace_stops_on_a_non_space (st : interp) :
  let st' := skip_whitespace st in
  isspace (current_char st') = false /\
  (pos st <= pos st')%nat /\
  same_frame st st' /\ (cursor_ok st -> cursor_ok st') /\
  skip_whitespace st' = st'.
Proof.
  intros st'.
  assert (isspace (current_char st') = false) as Hstop.
  { pose proof (skip_whitespace_exit st) as H. cbv zeta in H. fold st' in H.
    destruct (isspace (current_char st')) eqn:Hsp; [|reflexivity].
    rewrite andb_true_r in H. apply negb_false_iff in H.
    apply isspace_NUL_free in Hsp. unfold at_end, is_char in H. congruence. }
  split; [exact Hstop|]. split; [apply skip_whitespace_loop_pos|].
  destruct (extends_skip_whitespace st) as [Hframe Hok].
  split; [exact Hframe|]. split; [exact Hok|].
  unfold skip_whitespace at 1, rounds. cbn [skip_whitespace_loop].
  rewrite Hstop, andb_false_r. reflexivity.
Qed.

(** X15. [identifier], on a sound cursor, returns exactly the text between
    the old and the new position, made of letters, digits and underscores
    only, and stops at the end of the text or on a character that is none of
    those: the name is the longest one that starts at the cursor. *)
Theorem identifier_reads_the_longest_name (st st' : interp) (name : string) :
  cursor_ok st ->
  identifier st = (name, st') ->
  all_chars identifier_char name = true /\
  pos st' = (pos st + String.length name)%nat /\
  substring (pos st) (String.length name) (input st) = name /\
  negb (at_end st') && identifier_char (current_char st') = false /\
  input st' = input st /\ cursor_ok st'.
Proof.
  intros Hok Hid.
  pose proof (identifier_exit st) as Hexit.
  pose proof (extends_identifier st st' name Hid) as [(Hinput & _) Hok'].
  unfold identifier in *.
  destruct (scan_loop_spec (fun c => isalnum c || Ascii.eqb c "_") (rounds st)
              EmptyString st) as (suffix & Hres & Hall & _ & Hpos).
  rewrite Hid in Hres, Hpos, Hexit.
  change (name = suffix) in Hres. subst suffix.
  change (snd (name, st')) with st' in Hpos, Hexit.
  destruct (Hpos Hok) as [Hp Hs].
  repeat split; auto.
Qed.

Lemma identifier_reads_the_longest_name_witness :
  let st := mkInterp "x1_y = 2" 0 "x" ∅ ∅ ∅ in
  let st' := mkInterp "x1_y = 2" 4 " " ∅ ∅ ∅ in
  all_chars identifier_char "x1_y" = true /\
  pos st' = (pos st + String.length "x1_y")%nat /\
  substring (pos st) (String.length "x1_y") (input st) = "x1_y"%string /\
  negb (at_end st') && identifier_char (current_char st') = false /\
  input st' = input st /\ cursor_ok st'.
Proof.
  cbv zeta.
  exact (identifier_reads_the_longest_name (mkInterp "x1_y = 2" 0 "x" ∅ ∅ ∅)
           (mkInterp "x1_y = 2" 4 " " ∅ ∅ ∅) "x1_y" eq_refl eq_refl).
Defined.

(** ** Integer literals *)

Lemma digits_value_nonneg (s : string) (acc : Z) : 0 <= acc -> 0 <= digits_value acc s.
Proof.
  revert acc. induction s as [|c s IH]; intros acc Hacc; simpl; [exact Hacc|].
  destruct (isdigit c) eqn:Hc; [|exact Hacc]. apply IH.
  unfold isdigit in Hc. apply andb_true_iff in Hc as [Hlo _].
  apply Z.leb_le in Hlo. lia.
Qed.

Lemma stoi_of_digits (c : ascii) (s : string) :
  isdigit c = true ->
  stoi (String c s) =
  if in_int_range (digits_value 0 (String c s))
  then StoiValue (digits_value 0 (String c s)) else StoiOutOfRange.
Proof.
  intros Hc. unfold stoi.
  destruct c as [[] [] [] [] [] [] [] []]; try discriminate Hc;
    cbn [skip_spaces isspace code N_of_ascii N_of_digits Z.of_N orb andb
         Z.leb Z.eqb Z.compare Pos.compare Pos.compare_cont N.add N.mul
         Pos.add Pos.succ Pos.mul starts_with_digit isdigit];
    reflexivity.
Qed.

Lemma integer_on_digit (st : interp) :
  isdigit (current_char st) = true ->
  exists (digits : string) (st' : interp),
    digits <> EmptyString /\ all_chars isdigit digits = true /\
    0 <= digits_value 0 digits /\
    integer st =
      (if in_int_range (digits_value 0 digits)
       then Ok (digits_value 0 digits) st' else Throw LibOutOfRange st') /\
    negb (at_end st') && isdigit (current_char st') = false /\
    (cursor_ok st ->
     pos st' = (pos st + String.length digits)%nat /\
     substring (pos st) (String.length digits) (input st) = digits).
Proof.
  intros Hdigit. unfold integer.
  destruct (scan_loop_spec isdigit (rounds st) EmptyString st)
    as (digits & Hres & Hall & Hne & Hpos).
  pose proof (scan_loop_exit isdigit (rounds st) EmptyString st) as Hexit.
  destruct (scan_loop isdigit (rounds st) EmptyString st) as [text st'].
  change (text = digits) in Hres. subst text.
  change (snd (digits, st')) with st' in Hpos, Hexit.
  assert (digits <> EmptyString) as Hnonempty.
  { apply Hne; [unfold rounds; lia|]. rewrite Hdigit, andb_true_r.
    apply negb_true_iff. unfold at_end, is_char.
    destruct (current_char st) as [[] [] [] [] [] [] [] []];
      solve [discriminate Hdigit | reflexivity]. }
  exists digits, st'. split; [exact Hnonempty|]. split; [exact Hall|].
  split; [apply digits_value_nonneg; lia|].
  split; [|split; [apply Hexit; unfold rounds; lia | exact Hpos]].
  destruct digits as [|c digits]; [contradiction|].
  cbn [all_chars] in Hall. apply andb_true_iff in Hall as [Hc _].
  rewrite (stoi_of_digits c digits Hc).
  destruct (in_int_range (digits_value 0 (String c digits))); reflexivity.
Qed.

(** X16. [integer], called on a digit as [factor] calls it, reads the run of
    digits at the cursor and returns their decimal value, which is never
    negative; when that value does not fit an int it throws the out_of_range
    of [std::stoi]. Nothing else can happen, and the cursor is left on the
    first character that is not a digit. *)
Theorem integer_reads_a_decimal_literal (st : interp) :
  isdigit (current_char st) = true ->
  exists (digits : string) (st' : interp),
    digits <> EmptyString /\ all_chars isdigit digits = true /\
    0 <= digits_value 0 digits /\
    integer st =
      (if in_int_range (digits_value 0 digits)
       then Ok (digits_value 0 digits) st' else Throw LibOutOfRange st') /\
    negb (at_end st') && isdigit (current_char st') = false /\
    (cursor_ok st ->
     pos st' = (pos st + String.length digits)%nat /\
     substring (pos st) (String.length digits) (input st) = digits).
Proof. apply integer_on_digit. Qed.

Lemma integer_reads_a_decimal_literal_witness :
  exists (digits : string) (st' : interp),
    digits <> EmptyString /\ all_chars isdigit digits = true /\
    0 <= digits_value 0 digits /\
    integer (mkInterp "42+1" 0 "4" ∅ ∅ ∅) =
      (if in_int_range (digits_value 0 digits)
       then Ok (digits_value 0 digits) st' else Throw LibOutOfRange st') /\
    negb (at_end st') && isdigit (current_char st') = false /\
    (cursor_ok (mkInterp "42+1" 0 "4" ∅ ∅ ∅) ->
     pos st' = (pos (mkInterp "42+1" 0 "4" ∅ ∅ ∅) + String.length digits)%nat /\
     substring (pos (mkInterp "42+1" 0 "4" ∅ ∅ ∅)) (String.length digits)
       (input (mkInterp "42+1" 0 "4" ∅ ∅ ∅)) = digits).
Proof.
  exact (integer_reads_a_decimal_literal (mkInterp "42+1" 0 "4" ∅ ∅ ∅) eq_refl).
Defined.

(** ** The exceptions of an expression *)

Lemma throws_only_bind {A B : Type} (allowed : error -> bool) (r : outcome A)
    (k : A -> interp -> outcome B) :
  throws_only allowed r ->
  (forall a st, throws_only allowed (k a st)) ->
  throws_only allowed (bind r k).
Proof. destruct r; simpl; auto. Qed.

Lemma throws_only_integer (st : interp) :
  isdigit (current_char st) = true -> throws_only expression_error (integer st).
Proof.
  intros Hdigit.
  destruct (integer_on_digit st Hdigit) as (digits & st' & _ & _ & _ & -> & _).
  destruct (in_int_range (digits_value 0 digits)); reflexivity.
Qed.

Lemma throws_only_int_value (r : int_result) (st : interp) :
  throws_only expression_error (int_value r st).
Proof. destruct r; exact I. Qed.

Lemma throws_only_array_read (elements : option (list Z)) (index : Z) (st : interp) :
  throws_only expression_error (array_read elements index st).
Proof.
  unfold array_read. destruct elements as [elements|]; [|reflexivity].
  destruct ((index <? 0) || (Z.of_nat (length elements) <=? index)); [reflexivity|].
  destruct (elements !! Z.to_nat index); exact I.
Qed.

Lemma throws_only_call_prologue
    (args : list string -> list Z -> interp -> outcome (list Z))
    (func : Function) (st : interp) :
  (forall params acc st1, throws_only expression_error (args params acc st1)) ->
  throws_only expression_error (call_prologue args func st).
Proof.
  intros H. unfold call_prologue.
  destruct (negb (is_char (skip_whitespace st) "(")); [reflexivity|].
  apply throws_only_bind; [apply H|]. intros acc st1.
  destruct (negb (is_char st1 ")")); [reflexivity|exact I].
Qed.

Lemma throws_only_call_body (expr : interp -> outcome Z) (func : Function)
    (args : list Z) (st : interp) :
  (forall st1, throws_only expression_error (expr st1)) ->
  throws_only expression_error (call_body expr func args st).
Proof.
  intros H. unfold call_body.
  destruct (enter_body func args st) as [inside|]; [|exact I].
  specialize (H inside).
  destruct (expr inside) as [v st3|e st3|u|]; try exact I;
    destruct (leave_body st st3); try exact I; exact H.
Qed.

Lemma expr_family_throws (fuel : nat) :
  (forall st, throws_only expression_error (expr fuel st)) /\
  (forall result st, throws_only expression_error (expr_loop fuel result st)) /\
  (forall st, throws_only expression_error (term fuel st)) /\
  (forall result st, throws_only expression_error (term_loop fuel result st)) /\
  (forall st, throws_only expression_error (factor fuel st)) /\
  (forall name st, throws_only expression_error (call_function fuel name st)) /\
  (forall params args st, throws_only expression_error (call_args fuel params args st)).
Proof.
  induction fuel as [|fuel (IHexpr & IHexpr_loop & IHterm & IHterm_loop & IHfactor
                            & IHcall & IHargs)].
  { repeat split; intros; exact I. }
  repeat split.
  - intros st. rewrite expr_S. apply throws_only_bind; auto.
  - intros result st. rewrite expr_loop_S.
    destruct (is_char st "+" || is_char st "-"); [|exact I].
    apply throws_only_bind; [apply IHterm|]. intros v st1.
    apply throws_only_bind; [apply throws_only_int_value|]. auto.
  - intros st. rewrite term_S. apply throws_only_bind; auto.
  - intros result st. rewrite term_loop_S.
    destruct (is_char st "*" || is_char st "/"); [|exact I].
    apply throws_only_bind; [apply IHfactor|]. intros v st1.
    apply throws_only_bind; [apply throws_only_int_value|]. auto.
  - intros st. rewrite factor_S. cbv zeta.
    set (st0 := skip_whitespace st).
    destruct (isdigit (current_char st0)) eqn:Hdigit; [apply throws_only_integer, Hdigit|].
    destruct (isalpha (current_char st0)).
    + destruct (is_char (identifier st0).2 "[").
      * apply throws_only_bind; [apply IHexpr|]. intros index st2.
        destruct (negb (is_char st2 "]")); [reflexivity|apply throws_only_array_read].
      * destruct (variables (identifier st0).2 !! (identifier st0).1); [exact I|].
        destruct (functions (identifier st0).2 !! (identifier st0).1);
          [apply IHcall|reflexivity].
    + destruct (is_char st0 "("); [|reflexivity].
      apply throws_only_bind; [apply IHexpr|]. intros result st2.
      destruct (negb (is_char st2 ")")); [reflexivity|exact I].
  - intros name st. rewrite call_function_S.
    destruct (functions st !! name) as [func|]; [|reflexivity].
    apply throws_only_bind; [apply throws_only_call_prologue, IHargs|].
    intros args st1. apply throws_only_call_body, IHexpr.
  - intros params args st. rewrite call_args_S.
    destruct params as [|p params]; [exact I|].
    apply throws_only_bind.
    + destruct (0 <? length args)%nat; [|exact I].
      destruct (negb (is_char st ",")); [reflexivity|exact I].
    + intros _ st1. apply throws_only_bind; [apply IHexpr|]. auto.
Qed.

(** X17. Whatever the text and the tables, an expression, a call included,
    throws only a syntax error, an undefined symbol, an array index out of
    bounds, or the out_of_range of an integer literal too large for an int:
    [std::stoi] is never given a text without digits, and no vector is ever
    constructed. *)
Theorem expressions_throw_four_kinds_of_error (fuel : nat) (st st' : interp) (e : error) :
  expr fuel st = Throw e st' ->
  e = SyntaxError \/ e = UndefinedSymbol \/ e = OutOfBounds \/ e = LibOutOfRange.
Proof.
  intros H. pose proof (proj1 (expr_family_throws fuel) st) as Hthrows.
  rewrite H in Hthrows. destruct e; try discriminate Hthrows; tauto.
Qed.

Lemma expressions_throw_four_kinds_of_error_witness :
  expr 5 (mkInterp "1+y" 0 "1" ∅ ∅ ∅)
  = Throw UndefinedSymbol (mkInterp "1+y" 3 NUL ∅ ∅ ∅) /\
  (UndefinedSymbol = SyntaxError \/ UndefinedSymbol = UndefinedSymbol \/
   UndefinedSymbol = OutOfBounds \/ UndefinedSymbol = LibOutOfRange).
Proof.
  split; [reflexivity|].
  exact (expressions_throw_four_kinds_of_error 5
           (mkInterp "1+y" 0 "1" ∅ ∅ ∅) (mkInterp "1+y" 3 NUL ∅ ∅ ∅) UndefinedSymbol
           eq_refl).
Defined.

(** ** Every value is an int *)

Lemma ints_ok_same (st st' : interp) :
  variables st' = variables st -> arrays st' = arrays st -> ints_ok st -> ints_ok st'.
Proof. unfold ints_ok. intros -> ->. auto. Qed.

Lemma ints_ok_extends (st st' : interp) : extends st st' -> ints_ok st -> ints_ok st'.
Proof. intros [(_ & Hv & _ & Ha) _]. apply ints_ok_same; assumption. Qed.

Lemma of_checked_is_int (z v : Z) : of_checked z = IntValue v -> is_int v.
Proof.
  unfold of_checked, is_int. destruct (in_int_range z) eqn:H; [|discriminate].
  intros [= <-]. exact H.
Qed.

Lemma returns_int_value (r : int_result) (st : interp) :
  (forall v, r = IntValue v -> is_int v) -> returns is_int (int_value r st).
Proof. destruct r; simpl; auto. Qed.

Lemma returns_bind {A B : Type} (QA : A -> Prop) (QB : B -> Prop) (st : interp)
    (r : outcome A) (k : A -> interp -> outcome B) :
  ints_ok st -> preserved st r -> returns QA r ->
  (forall a st1, QA a -> ints_ok st1 -> returns QB (k a st1)) ->
  returns QB (bind r k).
Proof.
  intros Hok Hp Hr Hk. destruct r as [a st1|e st1|u|]; simpl; auto.
  apply Hk; [exact Hr|]. eapply ints_ok_extends; eauto.
Qed.

Lemma bind_parameters_ints (params : list string) (args : list Z)
    (vars bound : gmap string Z) :
  (forall x v, vars !! x = Some v -> is_int v) ->
  Forall is_int args ->
  bind_parameters params args vars = Some bound ->
  forall x v, bound !! x = Some v -> is_int v.
Proof.
  revert args vars. induction params as [|p params IH]; intros args vars Hvars Hargs.
  - intros [= <-]. exact Hvars.
  - destruct args as [|a args]; [discriminate|]. cbn [bind_parameters].
    apply Forall_cons in Hargs as [Ha Hargs]. apply IH; [|exact Hargs].
    intros x v. rewrite lookup_insert. destruct (decide (p = x)); [|apply Hvars].
    intros [= <-]. exact Ha.
Qed.

Lemma returns_call_body (expr : interp -> outcome Z) (func : Function)
    (args : list Z) (st : interp) :
  (forall st1, ints_ok st1 -> returns is_int (expr st1)) ->
  ints_ok st -> Forall is_int args ->
  returns is_int (call_body expr func args st).
Proof.
  intros IH [Hvars Harrs] Hargs. unfold call_body.
  destruct (enter_body func args st) as [inside|] eqn:Henter; [|exact I].
  apply cursor_ok_enter_body in Henter as (_ & _ & _ & _ & Ha & Hbound).
  assert (ints_ok inside) as Hinside.
  { split.
    - eapply bind_parameters_ints; eauto.
    - rewrite Ha. exact Harrs. }
  specialize (IH inside Hinside).
  destruct (expr inside) as [v st3|e st3|u|]; try exact I;
    destruct (leave_body st st3); try exact I; exact IH.
Qed.

Lemma returns_call_prologue
    (args : list string -> list Z -> interp -> outcome (list Z))
    (func : Function) (st : interp) :
  (forall params acc st1, preserved st1 (args params acc st1)) ->
  (forall params acc st1, ints_ok st1 -> Forall is_int acc ->
                          returns (Forall is_int) (args params acc st1)) ->
  ints_ok st ->
  returns (Forall is_int) (call_prologue args func st).
Proof.
  intros Hp IH Hok. unfold call_prologue.
  destruct (negb (is_char (skip_whitespace st) "(")); [exact I|].
  assert (ints_ok (advance (skip_whitespace st))) as Hok'.
  { eapply ints_ok_same; [| |eapply ints_ok_extends;
                             [apply extends_skip_whitespace|exact Hok]];
      reflexivity. }
  eapply returns_bind; [exact Hok'|apply Hp|apply IH; [exact Hok'|constructor]|].
  intros acc st1 Hacc _. destruct (negb (is_char st1 ")")); [exact I|exact Hacc].
Qed.

Lemma expr_family_returns_ints (fuel : nat) :
  (forall st, ints_ok st -> returns is_int (expr fuel st)) /\
  (forall result st, ints_ok st -> is_int result ->
                     returns is_int (expr_loop fuel result st)) /\
  (forall st, ints_ok st -> returns is_int (term fuel st)) /\
  (forall result st, ints_ok st -> is_int result ->
                     returns is_int (term_loop fuel result st)) /\
  (forall st, ints_ok st -> returns is_int (factor fuel st)) /\
  (forall name st, ints_ok st -> returns is_int (call_function fuel name st)) /\
  (forall params args st, ints_ok st -> Forall is_int args ->
                          returns (Forall is_int) (call_args fuel params args st)).
Proof.
  induction fuel as [|fuel (IHexpr & IHexpr_loop & IHterm & IHterm_loop & IHfactor
                            & IHcall & IHargs)].
  { repeat split; intros; exact I. }
  assert (forall st, ints_ok st -> ints_ok (advance st)) as Hadv.
  { intros st. apply ints_ok_same; reflexivity. }
  repeat split.
  - intros st Hok. rewrite expr_S.
    eapply returns_bind; [exact Hok|apply expr_family_preserved|apply IHterm, Hok|].
    intros result st1 Hres Hok1. apply IHexpr_loop; assumption.
  - intros result st Hok Hres. rewrite expr_loop_S.
    destruct (is_char st "+" || is_char st "-"); [|exact Hres].
    eapply returns_bind;
      [apply Hadv, Hok|apply expr_family_preserved|apply IHterm, Hadv, Hok|].
    intros v st1 Hv Hok1.
    eapply returns_bind;
      [exact Hok1|apply preserved_int_value|apply returns_int_value, of_checked_is_int|].
    intros result' st2 Hres' Hok2. apply IHexpr_loop; assumption.
  - intros st Hok. rewrite term_S.
    eapply returns_bind; [exact Hok|apply expr_family_preserved|apply IHfactor, Hok|].
    intros result st1 Hres Hok1. apply IHterm_loop; assumption.
  - intros result st Hok Hres. rewrite term_loop_S.
    destruct (is_char st "*" || is_char st "/"); [|exact Hres].
    eapply returns_bind;
      [apply Hadv, Hok|apply expr_family_preserved|apply IHfactor, Hadv, Hok|].
    intros v st1 Hv Hok1.
    eapply returns_bind; [exact Hok1|apply preserved_int_value| |].
    { apply returns_int_value. intros w.
      destruct (Ascii.eqb (current_char st) "*"); [apply of_checked_is_int|].
      unfold int_div. destruct (v =? 0); [discriminate|apply of_checked_is_int]. }
    intros result' st2 Hres' Hok2. apply IHterm_loop; assumption.
  - intros st Hok. rewrite factor_S. cbv zeta.
    pose proof (ints_ok_extends _ _ (extends_skip_whitespace st) Hok) as Hok0.
    set (st0 := skip_whitespace st) in *.
    destruct (isdigit (current_char st0)) eqn:Hdigit.
    { destruct (integer_on_digit st0 Hdigit) as (digits & st' & _ & _ & _ & -> & _).
      destruct (in_int_range (digits_value 0 digits)) eqn:Hr; [exact Hr|exact I]. }
    destruct (isalpha (current_char st0)).
    + pose proof (extends_identifier st0 (identifier st0).2 (identifier st0).1) as Hid.
      specialize (Hid ltac:(destruct (identifier st0); reflexivity)).
      pose proof (ints_ok_extends _ _ Hid Hok0) as Hok1.
      set (st1 := (identifier st0).2) in *. set (name := (identifier st0).1) in *.
      destruct (is_char st1 "[").
      * eapply returns_bind;
          [apply Hadv, Hok1|apply expr_family_preserved|apply IHexpr, Hadv, Hok1|].
        intros index st2 _ Hok2. destruct (negb (is_char st2 "]")); [exact I|].
        unfold array_read.
        destruct (arrays (advance st2) !! name) as [elements|] eqn:Harr; [|exact I].
        destruct ((index <? 0) || (Z.of_nat (length elements) <=? index)); [exact I|].
        destruct (elements !! Z.to_nat index) as [v|] eqn:Hv; [|exact I].
        exact (proj2 (Hadv _ Hok2) _ _ _ _ Harr Hv).
      * destruct (variables st1 !! name) as [v|] eqn:Hv; [exact (proj1 Hok1 _ _ Hv)|].
        destruct (functions st1 !! name); [apply IHcall, Hok1|exact I].
    + destruct (is_char st0 "("); [|exact I].
      eapply returns_bind;
        [apply Hadv, Hok0|apply expr_family_preserved|apply IHexpr, Hadv, Hok0|].
      intros result st2 Hres _. destruct (negb (is_char st2 ")")); [exact I|exact Hres].
  - intros name st Hok. rewrite call_function_S.
    destruct (functions st !! name) as [func|]; [|exact I].
    eapply returns_bind;
      [exact Hok|apply call_prologue_preserved|
        apply returns_call_prologue;
        [intros; apply expr_family_preserved|exact IHargs|exact Hok]|].
    intros args st1 Hargs Hok1. apply returns_call_body; auto.
  - intros params args st Hok Hargs. rewrite call_args_S.
    destruct params as [|p params]; [exact Hargs|].
    eapply (returns_bind (fun _ => True)); [exact Hok| | |].
    { destruct (0 <? length args)%nat; [|apply extends_refl].
      destruct (is_char st ",") eqn:Hcomma; cbn [negb]; [|apply extends_refl].
      apply (extends_advance_char st "," Hcomma). unfold NUL. discriminate. }
    { destruct (0 <? length args)%nat; [|exact I].
      destruct (negb (is_char st ",")); exact I. }
    intros _ st1 _ Hok1.
    eapply returns_bind; [exact Hok1|apply expr_family_preserved|apply IHexpr, Hok1|].
    intros v st2 Hv Hok2. apply IHargs; [exact Hok2|].
    apply Forall_app. split; [exact Hargs|]. constructor; [exact Hv|constructor].
Qed.

(** ** What a program keeps *)

Lemma evolves_same (st st' : interp) :
  variables st' = variables st -> functions st' = functions st ->
  arrays st' = arrays st -> evolves st st'.
Proof.
  intros Hv Hf Ha. split; [split; [exact Hf|intros name; rewrite Ha; reflexivity]|].
  apply ints_ok_same; assumption.
Qed.

Lemma evolves_refl (st : interp) : evolves st st.
Proof. apply evolves_same; reflexivity. Qed.

Lemma evolves_trans (st1 st2 st3 : interp) :
  evolves st1 st2 -> evolves st2 st3 -> evolves st1 st3.
Proof.
  intros [[Hf Ha] Hi] [[Hf' Ha'] Hi']. split; [split|].
  - congruence.
  - intros name. etransitivity; [apply Ha'|apply Ha].
  - auto.
Qed.

Lemma extends_evolves (st st' : interp) : extends st st' -> evolves st st'.
Proof. intros [(_ & Hv & Hf & Ha) _]. apply evolves_same; assumption. Qed.

Lemma evolving_after {A : Type} (st st1 : interp) (r : outcome A) :
  evolves st st1 -> evolving st1 r -> evolving st r.
Proof. destruct r; simpl; eauto using evolves_trans. Qed.

Lemma evolving_preserved {A : Type} (st : interp) (r : outcome A) :
  preserved st r -> evolving st r.
Proof. destruct r; simpl; auto using extends_evolves. Qed.

(** After [expr], the continuation knows that the value is an int whenever
    the state holds ints. *)
Lemma evolving_bind_expr {B : Type} (fuel : nat) (st : interp)
    (k : Z -> interp -> outcome B) :
  (forall value st1, (ints_ok st1 -> is_int value) -> evolving st1 (k value st1)) ->
  evolving st (bind (expr fuel st) k).
Proof.
  intros Hk. pose proof (expr_preserved fuel st) as Hp.
  pose proof (proj1 (expr_family_returns_ints fuel) st) as Hr.
  destruct (expr fuel st) as [v st1|e st1|u|]; simpl; auto using extends_evolves.
  eapply evolving_after; [apply extends_evolves, Hp|]. apply Hk.
  intros Hok1. apply Hr. destruct Hp as [(_ & Hv & _ & Ha) _].
  eapply ints_ok_same; [| |exact Hok1]; congruence.
Qed.

Lemma evolves_assign (st : interp) (id : string) (value : Z) :
  (ints_ok st -> is_int value) ->
  evolves st (set_variables st (<[id := value]> (variables st))).
Proof.
  intros Hvalue. split; [split; [reflexivity|intros name; reflexivity]|].
  intros Hok. split; [|exact (proj2 Hok)].
  intros x v. cbn [variables set_variables]. rewrite lookup_insert.
  destruct (decide (id = x)).
  - intros [= <-]. apply Hvalue, Hok.
  - apply (proj1 Hok).
Qed.

Lemma evolves_write (st : interp) (id : string) (elements : list Z) (i : nat)
    (value : Z) :
  arrays st !! id = Some elements ->
  (ints_ok st -> is_int value) ->
  evolves st (set_arrays st (<[id := <[i := value]> elements]> (arrays st))).
Proof.
  intros Harr Hvalue. split; [split; [reflexivity|]|].
  - intros name. cbn [arrays set_arrays]. rewrite lookup_insert.
    destruct (decide (id = name)) as [<-|_]; [|reflexivity].
    rewrite Harr. cbn. rewrite length_insert. reflexivity.
  - intros Hok. split; [exact (proj1 Hok)|].
    intros a els j v. cbn [arrays set_arrays]. rewrite lookup_insert.
    destruct (decide (id = a)) as [<-|_]; [|apply (proj2 Hok)].
    intros [= <-] Hj. apply list_lookup_insert_Some in Hj as [(_ & <- & _)|[_ Hj]].
    + apply Hvalue, Hok.
    + exact (proj2 Hok _ _ _ _ Harr Hj).
Qed.

Lemma statement_evolves (fuel : nat) (st : interp) : evolving st (statement fuel st).
Proof.
  assert (forall s c, is_char s c = true -> c <> NUL -> evolves s (advance s)) as Hadv.
  { intros s c Hc Hne. apply extends_evolves. eapply extends_advance_char; eauto. }
  unfold statement.
  eapply evolving_after; [apply extends_evolves, extends_skip_whitespace|].
  set (st0 := skip_whitespace st).
  destruct (at_end st0); [apply evolves_refl|].
  destruct (isalpha (current_char st0)) eqn:Halpha.
  - pose proof (extends_identifier st0) as Hid.
    destruct (identifier st0) as [id st1]. specialize (Hid st1 id eq_refl).
    eapply evolving_after; [apply extends_evolves, Hid|].
    eapply evolving_after; [apply extends_evolves, extends_skip_whitespace|].
    set (st2 := skip_whitespace st1).
    destruct (is_char st2 "=") eqn:Heq.
    { eapply evolving_after; [eapply Hadv; [exact Heq|unfold NUL; discriminate]|].
      apply evolving_bind_expr. intros value st3 Hvalue. apply evolves_assign, Hvalue. }
    destruct (is_char st2 "(") eqn:Hcall.
    { pose proof (call_function_preserved fuel id st2) as Hp.
      destruct (call_function fuel id st2); simpl; auto using extends_evolves. }
    destruct (is_char st2 "[") eqn:Hopen; [|apply evolves_refl].
    eapply evolving_after; [eapply Hadv; [exact Hopen|unfold NUL; discriminate]|].
    apply evolving_bind_expr. intros index st3 _.
    destruct (is_char st3 "]") eqn:Hclose; [|apply evolves_refl]. cbn [negb].
    eapply evolving_after; [eapply Hadv; [exact Hclose|unfold NUL; discriminate]|].
    eapply evolving_after; [apply extends_evolves, extends_skip_whitespace|].
    set (st4 := skip_whitespace (advance st3)).
    destruct (is_char st4 "=") eqn:Heq'; [|apply evolves_refl]. cbn [negb].
    eapply evolving_after; [eapply Hadv; [exact Heq'|unfold NUL; discriminate]|].
    apply evolving_bind_expr. intros value st5 Hvalue.
    destruct (arrays st5 !! id) as [elements|] eqn:Harr; [|apply evolves_refl].
    destruct ((index <? 0) || (Z.of_nat (length elements) <=? index));
      [apply evolves_refl|].
    apply evolves_write; assumption.
  - destruct (is_char st0 "f") eqn:Hf.
    { apply is_char_current in Hf. rewrite Hf in Halpha. discriminate Halpha. }
    destruct (is_char st0 "a") eqn:Ha.
    { apply is_char_current in Ha. rewrite Ha in Halpha. discriminate Halpha. }
    apply evolves_refl.
Qed.

Lemma program_evolves (fuel : nat) (st : interp) : evolving st (program fuel st).
Proof.
  revert st. induction fuel as [|fuel IH]; intros st; [exact I|].
  cbn [program]. destruct (at_end st); cbn [negb]; [apply evolves_refl|].
  pose proof (statement_evolves fuel st) as Hs.
  destruct (statement fuel st) as [[] st1|e st1|u|]; cbn [bind]; try exact I;
    [|exact Hs].
  eapply evolving_after; [exact Hs|].
  eapply evolving_after; [apply extends_evolves, extends_skip_whitespace|].
  set (st2 := skip_whitespace st1).
  destruct (is_char st2 ";") eqn:Hsemi.
  - eapply evolving_after; [|apply IH]. apply evolves_same; reflexivity.
  - destruct (at_end st2); cbn [negb]; [apply IH|apply evolves_refl].
Qed.

Lemma block_loop_evolves (fuel : nat) (st : interp) : evolving st (block_loop fuel st).
Proof.
  revert st. induction fuel as [|fuel IH]; intros st; [exact I|].
  cbn [block_loop].
  destruct (negb (at_end st) && negb (is_char st "}")); [|apply evolves_refl].
  pose proof (statement_evolves fuel st) as Hs.
  destruct (statement fuel st) as [[] st1|e st1|u|]; cbn [bind]; try exact I;
    [|exact Hs].
  eapply evolving_after; [exact Hs|].
  eapply evolving_after; [apply extends_evolves, extends_skip_whitespace|].
  destruct (is_char (skip_whitespace st1) ";"); [|apply IH].
  eapply evolving_after; [|apply IH]. apply evolves_same; reflexivity.
Qed.

Lemma interpret_evolves (fuel : nat) (text : string) (st : interp) :
  evolving st (interpret fuel text st).
Proof.
  unfold interpret, set_cursor.
  destruct (string_at text 0) as [c|]; [|exact I].
  set (st0 := mkInterp text 0 c (variables st) (functions st) (arrays st)).
  pose proof (program_evolves fuel st0) as Hp.
  assert (evolves st st0) as H0 by (apply evolves_same; reflexivity).
  destruct (program fuel st0) as [[] st1|e st1|u|]; try exact I;
    exact (evolves_trans _ _ _ H0 Hp).
Qed.

(** X19. Whatever the program, and whether it ran to its end or stopped on
    an error, [interpret] leaves the function table as it was and the arrays
    as they were in names and in lengths: no statement declares a function or
    an array, and an array write stays inside the array. From the state the
    constructor makes, both tables stay empty. *)
Theorem interpret_keeps_functions_and_array_shapes (fuel : nat) (text : string)
    (st st' : interp) (report : option error) :
  interpret fuel text st = Ok report st' ->
  functions st' = functions st /\
  (forall name : string,
      length <$> (arrays st' !! name) = length <$> (arrays st !! name)) /\
  (functions st = ∅ -> arrays st = ∅ -> functions st' = ∅ /\ arrays st' = ∅).
Proof.
  intros H. pose proof (interpret_evolves fuel text st) as He. rewrite H in He.
  destruct He as [[Hf Ha] _]. split; [exact Hf|]. split; [exact Ha|].
  intros Hf0 Ha0. split; [congruence|]. apply map_eq. intros name.
  specialize (Ha name). rewrite Ha0, !lookup_empty in *.
  destruct (arrays st' !! name); [discriminate Ha|reflexivity].
Qed.

Lemma interpret_keeps_functions_and_array_shapes_witness :
  let st := with_array 1 2 3 in
  let st' := mkInterp "a[0] = 9; array b[2]" 16 "b" ∅ ∅ {[ "a"%string := [9; 2; 3] ]} in
  interpret 20 "a[0] = 9; array b[2]" st = Ok (Some SyntaxError) st' /\
  functions st' = functions st /\
  (forall name : string,
      length <$> (arrays st' !! name) = length <$> (arrays st !! name)) /\
  (functions st = ∅ -> arrays st = ∅ -> functions st' = ∅ /\ arrays st' = ∅).
Proof.
  cbv zeta. split; [vm_compute; reflexivity|].
  apply (interpret_keeps_functions_and_array_shapes 20 "a[0] = 9; array b[2]"
           (with_array 1 2 3) _ (Some SyntaxError)).
  vm_compute. reflexivity.
Defined.

(** X21. [block], the function nothing calls: it wants an opening brace
    after the white space and throws a syntax error on anything else; and
    like a program it keeps the function table, the names and lengths of the
    arrays, and the values ints. *)
Theorem block_wants_a_brace_and_keeps_the_tables (fuel : nat) (st : interp) :
  (is_char (skip_whitespace st) "{" = false ->
   block fuel st = Throw SyntaxError (skip_whitespace st)) /\
  evolving st (block fuel st).
Proof.
  unfold block. split; [intros ->; reflexivity|].
  eapply evolving_after; [apply extends_evolves, extends_skip_whitespace|].
  set (st0 := skip_whitespace st).
  destruct (is_char st0 "{") eqn:Hopen; cbn [negb]; [|apply evolves_refl].
  pose proof (block_loop_evolves fuel (advance st0)) as Hl.
  destruct (block_loop fuel (advance st0)) as [[] st1|e st1|u|]; cbn [bind];
    try exact I.
  - destruct (negb (is_char st1 "}")); simpl;
      (eapply evolves_trans; [apply evolves_same; reflexivity|]);
      (eapply evolves_trans; [exact Hl|]); apply evolves_same; reflexivity.
  - simpl. eapply evolves_trans; [|exact Hl]. apply evolves_same; reflexivity.
Qed.

(** ** Assignments and array writes *)

Lemma isalpha_not_at_end (st : interp) :
  isalpha (current_char st) = true -> at_end st = false.
Proof.
  unfold at_end, is_char.
  destruct (current_char st) as [[] [] [] [] [] [] [] []]; cbv; intros H;
    solve [discriminate H | reflexivity].
Qed.

Lemma is_char_exclusive (st : interp) (c d : ascii) :
  is_char st c = true -> c <> d -> is_char st d = false.
Proof.
  intros Hc Hne. apply is_char_current in Hc. unfold is_char. rewrite Hc.
  apply Ascii.eqb_neq. exact Hne.
Qed.

(** X22. The statement [name = expression]: when the expression evaluates,
    the statement returns with the variable created or overwritten with the
    value, every other variable as before the statement, and the two other
    tables untouched. *)
Theorem assignment_sets_one_variable (fuel : nat) (st st2 : interp) (value : Z) :
  let st0 := skip_whitespace st in
  let name := fst (identifier st0) in
  let st1 := skip_whitespace (snd (identifier st0)) in
  isalpha (current_char st0) = true ->
  is_char st1 "=" = true ->
  expr fuel (advance st1) = Ok value st2 ->
  exists st',
    statement fuel st = Ok tt st' /\
    variables st' = <[name := value]> (variables st) /\
    variables st' !! name = Some value /\
    (forall x, x <> name -> variables st' !! x = variables st !! x) /\
    functions st' = functions st /\ arrays st' = arrays st /\
    input st' = input st /\ pos st' = pos st2.
Proof.
  intros st0 name st1 Halpha Heq Hexpr.
  pose proof (extends_skip_whitespace st) as [(Hi0 & Hv0 & Hf0 & Ha0) _].
  fold st0 in Hi0, Hv0, Hf0, Ha0.
  pose proof (extends_identifier st0 (identifier st0).2 (identifier st0).1) as Hid.
  destruct Hid as [(Hi1 & Hv1 & Hf1 & Ha1) _]; [destruct (identifier st0); reflexivity|].
  pose proof (extends_skip_whitespace (identifier st0).2) as [(Hi2 & Hv2 & Hf2 & Ha2) _].
  fold st1 in Hi2, Hv2, Hf2, Ha2.
  pose proof (expr_preserved fuel (advance st1)) as Hp. rewrite Hexpr in Hp.
  destruct Hp as [(Hi3 & Hv3 & Hf3 & Ha3) _].
  change (input (advance st1)) with (input st1) in Hi3.
  change (variables (advance st1)) with (variables st1) in Hv3.
  change (functions (advance st1)) with (functions st1) in Hf3.
  change (arrays (advance st1)) with (arrays st1) in Ha3.
  exists (set_variables st2 (<[name := value]> (variables st2))).
  assert (variables st2 = variables st) as Hv by congruence.
  split.
  - unfold statement. fold st0. rewrite (isalpha_not_at_end st0 Halpha), Halpha.
    destruct (identifier st0) as [id st1'] eqn:Hid.
    change (skip_whitespace st1') with st1. change id with name.
    rewrite Heq, Hexpr. reflexivity.
  - cbn [variables functions arrays input pos set_variables]. rewrite Hv.
    split; [reflexivity|]. split; [apply lookup_insert_eq|].
    split; [intros x Hx; apply lookup_insert_ne; congruence|].
    repeat split; congruence.
Qed.

Lemma assignment_sets_one_variable_witness :
  let st := mkInterp " x = 2*3;" 0 " " {[ "y"%string := 1 ]} ∅ ∅ in
  isalpha (current_char (skip_whitespace st)) = true /\
  exists st', statement 5 st = Ok tt st' /\ pos st' = 8%nat.
Proof.
  cbv zeta. split; [reflexivity|].
  pose proof (assignment_sets_one_variable 5
                (mkInterp " x = 2*3;" 0 " " {[ "y"%string := 1 ]} ∅ ∅)
                (mkInterp " x = 2*3;" 8 ";" {[ "y"%string := 1 ]} ∅ ∅) 6) as H.
  cbv zeta in H.
  destruct (H eq_refl eq_refl eq_refl) as (st' & Hs & _ & _ & _ & _ & _ & _ & Hpos).
  exists st'. split; [exact Hs|exact Hpos].
Defined.

(** X23. The statement [name[index] = expression]: the index and then the
    value are evaluated first; only then is the array looked up and the index
    checked, as for a read. A name that is no array throws UndefinedSymbol, an
    index outside [0, len) throws OutOfBounds, both with the arrays
    untouched; an index inside replaces that one element, and the array keeps
    its length. *)
Theorem array_write_is_bounds_checked (fuel : nat) (st st2 st4 : interp)
    (index value : Z) :
  let st0 := skip_whitespace st in
  let name := fst (identifier st0) in
  let st1 := skip_whitespace (snd (identifier st0)) in
  let st3 := skip_whitespace (advance st2) in
  isalpha (current_char st0) = true ->
  is_char st1 "[" = true ->
  expr fuel (advance st1) = Ok index st2 ->
  is_char st2 "]" = true ->
  is_char st3 "=" = true ->
  expr fuel (advance st3) = Ok value st4 ->
  statement fuel st =
  match arrays st !! name with
  | Some elements =>
      if (0 <=? index) && (index <? Z.of_nat (length elements))
      then Ok tt (set_arrays st4
                    (<[name := <[Z.to_nat index := value]> elements]> (arrays st)))
      else Throw OutOfBounds st4
  | None => Throw UndefinedSymbol st4
  end /\
  arrays st4 = arrays st /\
  (forall elements, arrays st !! name = Some elements ->
     length (<[Z.to_nat index := value]> elements) = length elements /\
     (0 <= index < Z.of_nat (length elements) ->
      <[Z.to_nat index := value]> elements !! Z.to_nat index = Some value)).
Proof.
  intros st0 name st1 st3 Halpha Hopen Hindex Hclose Heq Hvalue.
  pose proof (extends_skip_whitespace st) as [(_ & _ & _ & Ha0) _]. fold st0 in Ha0.
  pose proof (extends_identifier st0 (identifier st0).2 (identifier st0).1) as Hid.
  destruct Hid as [(_ & _ & _ & Ha1) _]; [destruct (identifier st0); reflexivity|].
  pose proof (extends_skip_whitespace (identifier st0).2) as [(_ & _ & _ & Ha2) _].
  fold st1 in Ha2.
  pose proof (expr_preserved fuel (advance st1)) as Hp. rewrite Hindex in Hp.
  destruct Hp as [(_ & _ & _ & Ha3) _].
  change (arrays (advance st1)) with (arrays st1) in Ha3.
  pose proof (extends_skip_whitespace (advance st2)) as [(_ & _ & _ & Ha4) _].
  fold st3 in Ha4. change (arrays (advance st2)) with (arrays st2) in Ha4.
  pose proof (expr_preserved fuel (advance st3)) as Hp. rewrite Hvalue in Hp.
  destruct Hp as [(_ & _ & _ & Ha5) _].
  change (arrays (advance st3)) with (arrays st3) in Ha5.
  assert (arrays st4 = arrays st) as Ha by congruence.
  split; [|split; [exact Ha|]].
  - unfold statement. fold st0. rewrite (isalpha_not_at_end st0 Halpha), Halpha.
    destruct (identifier st0) as [id st1'] eqn:Hid.
    change (skip_whitespace st1') with st1. change id with name.
    rewrite (is_char_exclusive st1 "[" "=" Hopen) by discriminate.
    rewrite (is_char_exclusive st1 "[" "(" Hopen) by discriminate.
    rewrite Hopen, Hindex. cbn [bind]. rewrite Hclose. cbn [negb]. fold st3.
    rewrite Heq. cbn [negb]. rewrite Hvalue. cbn [bind]. rewrite Ha.
    destruct (arrays st !! name) as [elements|]; [|reflexivity].
    destruct (Z.ltb_spec index 0) as [Hneg|Hpos]; cbn [orb].
    + replace (0 <=? index) with false by (symmetry; apply Z.leb_gt; lia). reflexivity.
    + replace (0 <=? index) with true by (symmetry; apply Z.leb_le; lia). cbn [andb].
      destruct (Z.leb_spec (Z.of_nat (length elements)) index) as [Hge|Hlt].
      * replace (index <? Z.of_nat (length elements)) with false
          by (symmetry; apply Z.ltb_ge; lia). reflexivity.
      * replace (index <? Z.of_nat (length elements)) with true
          by (symmetry; apply Z.ltb_lt; lia). reflexivity.
  - intros elements _. split; [apply length_insert|].
    intros Hin. apply list_lookup_insert_eq. lia.
Qed.

Lemma array_write_is_bounds_checked_witness :
  let st := mkInterp "a[3] = 7" 0 "a" ∅ ∅ {[ "a"%string := [0; 0; 0] ]} in
  statement 5 st
  = Throw OutOfBounds (mkInterp "a[3] = 7" 8 NUL ∅ ∅ {[ "a"%string := [0; 0; 0] ]}).
Proof.
  cbv zeta.
  pose proof (array_write_is_bounds_checked 5
                (mkInterp "a[3] = 7" 0 "a" ∅ ∅ {[ "a"%string := [0; 0; 0] ]})
                (mkInterp "a[3] = 7" 3 "]" ∅ ∅ {[ "a"%string := [0; 0; 0] ]})
                (mkInterp "a[3] = 7" 8 NUL ∅ ∅ {[ "a"%string := [0; 0; 0] ]})
                3 7) as H.
  cbv zeta in H.
  destruct (H eq_refl eq_refl eq_refl eq_refl eq_refl eq_refl) as [Hs _].
  vm_compute in Hs. vm_compute. exact Hs.
Defined.

(** ** A call that fails *)



Lemma skip_whitespace_twice (st : interp) :
  skip_whitespace (skip_whitespace st) = skip_whitespace st.
Proof.
  pose proof (skip_whitespace_exit st) as Hexit. cbv zeta in Hexit.
  unfold skip_whitespace at 1, rounds. cbn [skip_whitespace_loop].
  rewrite Hexit. reflexivity.
Qed.




End InterpreterFacts.
